(** * IFCRag: the question-answering server (AiDemo/server.js)

    A shallow embedding of the query-resolution pipeline of server.js:
    schema discovery with its cache ([discoverSchema]), the prompt
    builder ([generateSchemaHint]), the resolver with its fallback ladder
    ([processQuery], [generateFallbackQueries]), the result formatter
    ([formatResult]), the identifier extractor ([extractGlobalIds]) and
    the three request handlers ([handleAsk], [handleHealth],
    [handleSchema]).

    Conventions of the embedding.
    - JavaScript strings are [string]s of bytes (UTF-8).  [toLowerCase]
      and [trim] act on the ASCII range; a substring test with an ASCII
      needle is the same on UTF-8 bytes and on UTF-16 code units.
    - The driver is created with its default configuration (server.js
      line 14), so a Cypher integer arrives as the driver's Integer
      object: it prints in decimal, it is always truthy, and
      JSON.stringify shows its two 32-bit halves.  Cypher floats are
      outside the model.
    - A plain JavaScript object used as a map is an association list in
      insertion order; assigning to an existing key keeps its position.
      (Keys that look like array indices, which JavaScript would
      enumerate first, do not occur among labels, relationship types or
      column names.)
    - Exceptions are explicit: a function that can throw returns an
      [Outcome]; code that talks to the database runs in [Eff], which
      also records the session events.  The driver's [record.get]
      throws for a column the record does not have; [driver.session()]
      and [session.close()] do not throw.
    - The database and the translator are parameters: a call is given
      the answers (rows or an exception) it will get, and [Date.now()]
      is the argument [now]. *)

From Stdlib Require Import ZArith List String Ascii Bool Lia Arith.
From Stdlib Require Import Numbers.DecimalString.
Import ListNotations.

#[local] Set Warnings "-register-all".
#[local] Open Scope string_scope.
#[local] Open Scope list_scope.

(** String append is written [+++], so that [++] stays list append. *)
Infix "+++" := String.append (right associativity, at level 60).

(* ================================================================= *)
(** ** JavaScript built-ins used by server.js *)

Module JS.

(** The double quote and the line feed, which a string literal of this
    file cannot hold directly. *)
Definition dq : string := String (ascii_of_nat 34) "".
Definition nl : string := String (ascii_of_nat 10) "".

Definition lowerChar (c : ascii) : ascii :=
  let n := nat_of_ascii c in
  if (65 <=? n)%nat && (n <=? 90)%nat then ascii_of_nat (n + 32) else c.

(** [s.toLowerCase()] *)
Fixpoint toLowerCase (s : string) : string :=
  match s with
  | EmptyString => EmptyString
  | String c s' => String (lowerChar c) (toLowerCase s')
  end.

(** [s.startsWith(p)] *)
Definition startsWith (s p : string) : bool := String.prefix p s.

(** [s.includes(needle)] *)
Fixpoint includes (s needle : string) : bool :=
  if startsWith s needle then true
  else match s with
       | EmptyString => false
       | String _ s' => includes s' needle
       end.

(** [arr.includes(x)] on an array of strings *)
Definition arrIncludes (arr : list string) (x : string) : bool :=
  existsb (String.eqb x) arr.

(** [arr.join(sep)] on an array of strings *)
Fixpoint join (sep : string) (arr : list string) : string :=
  match arr with
  | [] => ""
  | [x] => x
  | x :: rest => x +++ sep +++ join sep rest
  end.

(** Decimal rendering of an integer, as in a template literal. *)
Definition intToString (n : Z) : string :=
  NilZero.string_of_int (Z.to_int n).

Definition natToString (n : nat) : string := intToString (Z.of_nat n).

Definition isSpace (c : ascii) : bool :=
  let n := nat_of_ascii c in
  ((9 <=? n)%nat && (n <=? 13)%nat) || (n =? 32)%nat.

Fixpoint trimStart (s : string) : string :=
  match s with
  | EmptyString => EmptyString
  | String c s' => if isSpace c then trimStart s' else s
  end.

Fixpoint trimEnd (s : string) : string :=
  match s with
  | EmptyString => EmptyString
  | String c s' =>
      match trimEnd s' with
      | EmptyString => if isSpace c then EmptyString else String c EmptyString
      | t => String c t
      end
  end.

(** [s.trim()] *)
Definition trim (s : string) : string := trimEnd (trimStart s).

(** [s.replace(/pat\n?/g, '')] for a literal, non-empty [pat]: every
    occurrence of [pat], scanning from the left, is removed together
    with one line feed that follows it.  [skip] counts the characters
    of the current occurrence still to drop, [lf] says that a line
    feed met now belongs to the occurrence just dropped. *)
Fixpoint removeAll (pat : string) (skip : nat) (lf : bool) (s : string) : string :=
  match s with
  | EmptyString => EmptyString
  | String c s' =>
      match skip with
      | S k => removeAll pat k lf s'
      | O =>
          if lf && Ascii.eqb c (ascii_of_nat 10) then removeAll pat 0 false s'
          else if startsWith s pat then removeAll pat (String.length pat - 1) true s'
          else String c (removeAll pat 0 false s')
      end
  end.

End JS.
Import JS.

(* ================================================================= *)
(** ** Exceptions *)

Inductive Outcome (A : Type) : Type :=
| Return (a : A)
| Throw (e : string).
Arguments Return {A} a.
Arguments Throw {A} e.

Definition bindO {A B : Type} (m : Outcome A) (k : A -> Outcome B) : Outcome B :=
  match m with
  | Return a => k a
  | Throw e => Throw e
  end.

Notation "x <- m ;; k" := (bindO m (fun x => k))
  (at level 61, m at next level, right associativity).

(** [arr.map(f)] for an [f] that may throw: the first exception ends the
    traversal. *)
Fixpoint mapO {A B : Type} (f : A -> Outcome B) (l : list A) : Outcome (list B) :=
  match l with
  | [] => Return []
  | x :: rest =>
      y <- f x ;;
      ys <- mapO f rest ;;
      Return (y :: ys)
  end.

(* ================================================================= *)
(** ** Plain objects used as maps *)

Section JsObject.
Context {V : Type}.

Definition Obj := list (string * V).

(** [Object.keys(o)] *)
Definition objKeys (o : Obj) : list string := map fst o.

(** [o[k]]: [None] stands for [undefined]. *)
Fixpoint objGet (o : Obj) (k : string) : option V :=
  match o with
  | [] => None
  | (k', v) :: o' => if String.eqb k' k then Some v else objGet o' k
  end.

(** [o[k] = v] *)
Fixpoint objSet (o : Obj) (k : string) (v : V) : Obj :=
  match o with
  | [] => [(k, v)]
  | (k', v') :: o' =>
      if String.eqb k' k then (k', v) :: o' else (k', v') :: objSet o' k v
  end.
End JsObject.
Arguments Obj V : clear implicits.

(* ================================================================= *)
(** ** Result rows (the driver's Result, Record and cell values) *)

(** A scalar: null, boolean, Integer object or string. *)
Inductive Scalar : Type :=
| SNull
| SBool (b : bool)
| SInt (n : Z)
| SStr (s : string).

(** A cell: a scalar, a list of cells, or a node or relationship, which
    has a [properties] bag and the text its [toString] gives. *)
Inductive Value : Type :=
| VScalar (s : Scalar)
| VList (items : list Value)
| VNode (text : string) (properties : Obj Scalar).

(** A record: its columns in order, each with its cell. *)
Definition Row := list (string * Value).

Record QueryResult := { records : list Row }.

(** [record.keys] *)
Definition keys (r : Row) : list string := map fst r.

(** [record.get(key)] for a column name: the driver throws when the
    record has no such column. *)
Definition get (r : Row) (key : string) : Outcome Value :=
  match find (fun kv => String.eqb (fst kv) key) r with
  | Some kv => Return (snd kv)
  | None =>
      Throw ("This record has no field with key '" +++ key
             +++ "', available keys are: [" +++ join "," (keys r) +++ "].")
  end.

(** [record.get(i)] for a column index. *)
Definition getIndex (r : Row) (i : nat) : Outcome Value :=
  match nth_error r i with
  | Some kv => Return (snd kv)
  | None =>
      Throw ("This record has no field with index '" +++ natToString i +++ "'.")
  end.

Definition scalarToString (s : Scalar) : string :=
  match s with
  | SNull => "null"
  | SBool true => "true"
  | SBool false => "false"
  | SInt n => intToString n
  | SStr s => s
  end.

(** The text of a value in a template literal.  An array prints its
    elements separated by commas, null elements as nothing. *)
Fixpoint toString (v : Value) : string :=
  match v with
  | VScalar s => scalarToString s
  | VList items =>
      join "," (map (fun x => match x with
                              | VScalar SNull => ""
                              | _ => toString x
                              end) items)
  | VNode text _ => text
  end.

(** [arr.join(sep)] on an array of cells. *)
Definition joinValues (sep : string) (items : list Value) : string :=
  join sep (map (fun x => match x with
                          | VScalar SNull => ""
                          | _ => toString x
                          end) items).

Definition scalarTruthy (s : Scalar) : bool :=
  match s with
  | SNull => false
  | SBool b => b
  | SInt _ => true
  | SStr s => negb (String.eqb s "")
  end.

(** JavaScript truthiness. *)
Definition truthy (v : Value) : bool :=
  match v with
  | VScalar s => scalarTruthy s
  | VList _ => true
  | VNode _ _ => true
  end.

(** [v || d] for a string [d]. *)
Definition orString (v : Value) (d : string) : Value :=
  if truthy v then v else VScalar (SStr d).

(* ================================================================= *)
(** ** JSON.stringify(value, null, 2) *)

Inductive Json : Type :=
| JNull
| JBool (b : bool)
| JNum (n : Z)
| JStr (s : string)
| JArr (items : list Json)
| JObj (members : list (string * Json)).

Definition hexDigit (n : nat) : ascii :=
  if (n <? 10)%nat then ascii_of_nat (48 + n) else ascii_of_nat (87 + n).

(** One character inside a JSON string literal. *)
Definition escapeChar (c : ascii) : string :=
  let n := nat_of_ascii c in
  if (n =? 34)%nat then "\" +++ dq
  else if (n =? 92)%nat then "\\"
  else if (n =? 8)%nat then "\b"
  else if (n =? 9)%nat then "\t"
  else if (n =? 10)%nat then "\n"
  else if (n =? 12)%nat then "\f"
  else if (n =? 13)%nat then "\r"
  else if (n <? 32)%nat
       then "\u00" +++ String (hexDigit (n / 16)) (String (hexDigit (n mod 16)) "")
  else String c "".

Fixpoint escapeString (s : string) : string :=
  match s with
  | EmptyString => EmptyString
  | String c s' => escapeChar c +++ escapeString s'
  end.

Definition quoteJson (s : string) : string := dq +++ escapeString s +++ dq.

(** [indent] is the indentation of the line the value starts on. *)
Fixpoint stringifyAt (indent : string) (j : Json) : string :=
  let inner := indent +++ "  " in
  match j with
  | JNull => "null"
  | JBool true => "true"
  | JBool false => "false"
  | JNum n => intToString n
  | JStr s => quoteJson s
  | JArr [] => "[]"
  | JArr items =>
      "[" +++ nl +++ inner
      +++ join ("," +++ nl +++ inner) (map (stringifyAt inner) items)
      +++ nl +++ indent +++ "]"
  | JObj [] => "{}"
  | JObj members =>
      "{" +++ nl +++ inner
      +++ join ("," +++ nl +++ inner)
            (map (fun kv => let '(k, v) := kv in
                            quoteJson k +++ ": " +++ stringifyAt inner v) members)
      +++ nl +++ indent +++ "}"
  end.

Definition stringify (j : Json) : string := stringifyAt "" j.

(** The signed value of the low 32 bits of [n]. *)
Definition toInt32 (n : Z) : Z :=
  let m := Z.land n 4294967295 in
  if (m <? 2147483648)%Z then m else (m - 4294967296)%Z.

(** The JSON of a scalar; an Integer object shows its fields [low] and
    [high]. *)
Definition scalarJson (s : Scalar) : Json :=
  match s with
  | SNull => JNull
  | SBool b => JBool b
  | SInt n => JObj [("low", JNum (toInt32 n)); ("high", JNum (toInt32 (Z.shiftr n 32)))]
  | SStr s => JStr s
  end.

(* ================================================================= *)
(** ** formatResult (server.js 346-401) *)

Definition maxRows : nat := 10.

(** One entry of the list of named items (server.js 370-375). *)
Definition formatItem (record : Row) : Outcome string :=
  n <- get record "name" ;;
  g <- get record "globalId" ;;
  i <- get record "nid" ;;
  let name := orString n "Unnamed" in
  let globalId := orString g "" in
  let nid := orString i "" in
  Return ("• " +++ toString name +++
          (if truthy globalId then " (ID: " +++ toString globalId +++ ")"
           else if truthy nid then " (nid: " +++ toString nid +++ ")"
           else "")).

(** What the generic format stores under a column (server.js 388-395). *)
Definition tabularCell (value : Value) : Json :=
  match value with
  | VNode _ properties => JObj (map (fun kv => (fst kv, scalarJson (snd kv))) properties)
  | VList items => JStr (joinValues ", " items)
  | VScalar s => scalarJson s
  end.

(** One row of the generic format (server.js 385-398): [obj] is filled
    column by column. *)
Fixpoint tabularFill (record : Row) (ks : list string) (obj : Obj Json)
  : Outcome (Obj Json) :=
  match ks with
  | [] => Return obj
  | key :: rest =>
      value <- get record key ;;
      tabularFill record rest (objSet obj key (tabularCell value))
  end.

Definition tabularRow (record : Row) : Outcome Json :=
  obj <- tabularFill record (keys record) [] ;;
  Return (JObj obj).

Definition formatResult (result : QueryResult) (question : string) : Outcome string :=
  let records := result.(records) in
  match records with
  | [] => Return "No results found."
  | first :: _ =>
      if (List.length records =? 1)%nat && (List.length (keys first) =? 1)%nat then
        let key := nth 0 (keys first) "" in
        value <- getIndex first 0 ;;
        if includes (toLowerCase key) "count"
        then Return ("Found " +++ toString value +++ " item(s).")
        else Return ("Result: " +++ toString value)
      else
        let displayRecords := firstn maxRows records in
        if arrIncludes (keys first) "name" || arrIncludes (keys first) "globalId" then
          items <- mapO formatItem displayRecords ;;
          let text := "Found " +++ natToString (List.length records) +++ " result(s):"
                      +++ nl +++ join nl items in
          Return (if (maxRows <? List.length records)%nat
                  then text +++ nl +++ "... and "
                       +++ natToString (List.length records - maxRows) +++ " more"
                  else text)
        else
          rows <- mapO tabularRow displayRecords ;;
          Return ("Results (" +++ natToString (List.length rows) +++ "/"
                  +++ natToString (List.length records) +++ "):" +++ nl
                  +++ stringify (JArr rows))
  end.

(* ================================================================= *)
(** ** extractGlobalIds (server.js 404-431) *)

Definition isGuidChar (c : ascii) : bool :=
  let n := nat_of_ascii c in
  ((48 <=? n)%nat && (n <=? 57)%nat)
  || ((65 <=? n)%nat && (n <=? 90)%nat)
  || ((97 <=? n)%nat && (n <=? 122)%nat)
  || (n =? 95)%nat || (n =? 36)%nat || (n =? 45)%nat.

Fixpoint allChars (p : ascii -> bool) (s : string) : bool :=
  match s with
  | EmptyString => true
  | String c s' => p c && allChars p s'
  end.

(** [/^[0-9A-Za-z_$-]{22}$/.test(s)] *)
Definition isGuid (s : string) : bool :=
  (String.length s =? 22)%nat && allChars isGuidChar s.

Definition scalarEqb (a b : Scalar) : bool :=
  match a, b with
  | SNull, SNull => true
  | SBool x, SBool y => Bool.eqb x y
  | SInt x, SInt y => Z.eqb x y
  | SStr x, SStr y => String.eqb x y
  | _, _ => false
  end.

(** [ids.add(x)] on a Set kept in insertion order.  Strings, booleans
    and null are compared by value; an Integer object is compared by
    identity, and each one the extractor meets is an object of its own,
    so it is always new. *)
Definition setAdd (ids : list Scalar) (x : Scalar) : list Scalar :=
  match x with
  | SInt _ => ids ++ [x]
  | _ => if existsb (scalarEqb x) ids then ids else ids ++ [x]
  end.

(** [properties.GlobalId || properties.globalId], when truthy. *)
Definition bagGlobalId (properties : Obj Scalar) : option Scalar :=
  let first :=
    match objGet properties "GlobalId" with
    | Some g => if scalarTruthy g then Some g else objGet properties "globalId"
    | None => objGet properties "globalId"
    end in
  match first with
  | Some g => if scalarTruthy g then Some g else None
  | None => None
  end.

(** The body of the inner loop, for one cell. *)
Definition collectCell (ids : list Scalar) (key : string) (value : Value)
  : list Scalar :=
  match value with
  | VScalar (SStr s) =>
      if includes (toLowerCase key) "globalid" then setAdd ids (SStr s)
      else if isGuid s then setAdd ids (SStr s)
      else ids
  | VNode _ properties =>
      match bagGlobalId properties with
      | Some g => setAdd ids g
      | None => ids
      end
  | _ => ids
  end.

Fixpoint collectRecord (record : Row) (ks : list string) (ids : list Scalar)
  : Outcome (list Scalar) :=
  match ks with
  | [] => Return ids
  | key :: rest =>
      value <- get record key ;;
      collectRecord record rest (collectCell ids key value)
  end.

Fixpoint collectRecords (records : list Row) (ids : list Scalar)
  : Outcome (list Scalar) :=
  match records with
  | [] => Return ids
  | record :: rest =>
      ids' <- collectRecord record (keys record) ids ;;
      collectRecords rest ids'
  end.

Definition extractGlobalIds (records : list Row) : Outcome (list Scalar) :=
  collectRecords records [].

(* ================================================================= *)
(** ** The schema snapshot *)

Record SampleRecord := {
  nid : Scalar;
  name : Scalar;
  globalId : Scalar
}.

Record LabelInfo := {
  count : Z;
  properties : list string;
  samples : list SampleRecord
}.

Record Schema := {
  labels : Obj LabelInfo;
  relationships : Obj Z
}.

(* ================================================================= *)
(** ** generateSchemaHint (server.js 127-203) *)

Definition elementMappings : Obj (list string) :=
  [ ("wall", ["IfcWall"; "IfcWallStandardCase"; "IfcCurtainWall"]);
    ("door", ["IfcDoor"]);
    ("window", ["IfcWindow"]);
    ("slab", ["IfcSlab"]);
    ("column", ["IfcColumn"]);
    ("beam", ["IfcBeam"]);
    ("space", ["IfcSpace"]);
    ("room", ["IfcSpace"]);
    ("floor", ["IfcBuildingStorey"; "IfcSlab"]);
    ("storey", ["IfcBuildingStorey"]);
    ("building", ["IfcBuilding"]);
    ("site", ["IfcSite"]);
    ("project", ["IfcProject"]);
    ("pipe", ["IfcPipeSegment"; "IfcPipeFitting"]);
    ("duct", ["IfcDuctSegment"; "IfcDuctFitting"]);
    ("equipment", ["IfcDistributionElement"; "IfcFlowTerminal"]) ].

(** The loop of server.js 154-159 over the entries of a mapping table. *)
Fixpoint findMappings (existingLabels : list string)
    (entries : list (string * list string)) (actualMappings : Obj (list string))
  : Obj (list string) :=
  match entries with
  | [] => actualMappings
  | (concept, possibleLabels) :: rest =>
      let foundLabels := filter (arrIncludes existingLabels) possibleLabels in
      if (0 <? List.length foundLabels)%nat
      then findMappings existingLabels rest (objSet actualMappings concept foundLabels)
      else findMappings existingLabels rest actualMappings
  end.

(** One line of the label list.  [label] is a key of [labels], so the
    lookup finds its entry. *)
Definition labelLine (labels : Obj LabelInfo) (label : string) : string :=
  "- " +++ label +++ " ("
  +++ match objGet labels label with
      | Some info => intToString info.(count)
      | None => "undefined"
      end
  +++ " nodes)".

Definition mappingLine (entry : string * list string) : string :=
  "- " +++ fst entry +++ ": " +++ join " OR " (snd entry).

Definition hintIntro : list string :=
  [ "You are a Cypher generator for a Neo4j graph built from an IFC file.";
    "";
    "AVAILABLE LABELS (with counts):" ].

Definition hintMappingsTitle : list string :=
  [ "";
    "COMMON ELEMENT MAPPINGS:" ].

Definition hintRelationshipsTitle : list string :=
  [ "";
    "RELATIONSHIP TYPES AVAILABLE:" ].

Definition hintRest : list string :=
  [ "";
    "COMMON PROPERTIES:";
    "- nid: unique node identifier (integer)";
    "- Name: element name (string)";
    "- GlobalId/globalId: IFC global identifier (string)";
    "- ObjectType: object type description (string)";
    "- LongName: longer descriptive name (string)";
    "";
    "QUERY GUIDELINES:";
    "1. When user asks about " +++ dq +++ "walls" +++ dq +++ ", use: MATCH (n) WHERE any(label IN labels(n) WHERE label CONTAINS 'Wall')";
    "2. For counting, always use this flexible pattern for better results";
    "3. When listing items, return useful properties: name, globalId, nid";
    "4. Use coalesce() for name fields: coalesce(n.Name, n.ObjectType, n.LongName, 'Unnamed')";
    "5. For spatial queries, look for IfcSpace, IfcBuildingStorey, IfcBuilding, IfcSite";
    "6. Only output valid Cypher - no explanations";
    "7. Use LIMIT for listing queries to avoid overwhelming results";
    "";
    "EXAMPLES:";
    "Q: " +++ dq +++ "How many walls are there?" +++ dq;
    "A: MATCH (n) WHERE any(label IN labels(n) WHERE label CONTAINS 'Wall') RETURN count(n) AS count;";
    "";
    "Q: " +++ dq +++ "List all doors with names" +++ dq;
    "A: MATCH (n) WHERE any(label IN labels(n) WHERE label CONTAINS 'Door') RETURN coalesce(n.Name, n.ObjectType, 'Unnamed') AS name, coalesce(n.GlobalId, n.globalId, '') AS globalId, n.nid AS nid LIMIT 20;";
    "";
    "Q: " +++ dq +++ "What spaces are on the ground floor?" +++ dq;
    "A: MATCH (space) WHERE any(label IN labels(space) WHERE label CONTAINS 'Space') MATCH (floor) WHERE any(label IN labels(floor) WHERE label CONTAINS 'Storey') RETURN coalesce(space.Name, space.LongName, 'Unnamed Space') AS spaceName LIMIT 10;";
    "" ].

(** The three computed parts of the hint. *)
Definition hintLabels (schema : Schema) : list string :=
  map (labelLine schema.(labels)) (objKeys schema.(labels)).

Definition hintMappings (schema : Schema) : list string :=
  map mappingLine (findMappings (objKeys schema.(labels)) elementMappings []).

Definition hintRelationships (schema : Schema) : list string :=
  firstn 10 (objKeys schema.(relationships)).

Definition generateSchemaHint (schema : Schema) : string :=
  join nl hintIntro +++ nl
  +++ join nl (hintLabels schema) +++ nl
  +++ join nl hintMappingsTitle +++ nl
  +++ join nl (hintMappings schema) +++ nl
  +++ join nl hintRelationshipsTitle +++ nl
  +++ join ", " (hintRelationships schema) +++ nl
  +++ join nl hintRest.

(* ================================================================= *)
(** ** generateFallbackQueries (server.js 270-343) *)

Record Fallback := {
  strategy : string;
  cypher : string
}.

(** A concept: its keywords and the label fragments ([labels] in the
    source). *)
Record Concept := {
  keywords : list string;
  fragments : list string
}.

Definition concepts : list Concept :=
  [ {| keywords := ["wall"; "walls"]; fragments := ["Wall"] |};
    {| keywords := ["door"; "doors"]; fragments := ["Door"] |};
    {| keywords := ["window"; "windows"]; fragments := ["Window"] |};
    {| keywords := ["slab"; "slabs"; "floor"; "floors"]; fragments := ["Slab"; "Storey"] |};
    {| keywords := ["column"; "columns"]; fragments := ["Column"] |};
    {| keywords := ["beam"; "beams"]; fragments := ["Beam"] |};
    {| keywords := ["space"; "spaces"; "room"; "rooms"]; fragments := ["Space"] |};
    {| keywords := ["building"; "buildings"]; fragments := ["Building"] |};
    {| keywords := ["pipe"; "pipes"]; fragments := ["Pipe"] |} ].

(** [concept.keywords.some(keyword => lowerQuestion.includes(keyword))] *)
Definition conceptMatches (lowerQuestion : string) (concept : Concept) : bool :=
  existsb (fun keyword => includes lowerQuestion keyword) concept.(keywords).

(** Strategy 1, flexible label matching (server.js 290-304). *)
Definition flexibleFallbacks (lowerQuestion : string) (concept : Concept)
  : list Fallback :=
  let labelCondition :=
    join " OR " (map (fun label => "label CONTAINS '" +++ label +++ "'")
                     concept.(fragments)) in
  let first := toLowerCase (hd "" concept.(fragments)) in
  if includes lowerQuestion "how many" || includes lowerQuestion "count" then
    [ {| strategy := "count_" +++ first;
         cypher := "MATCH (n) WHERE any(label IN labels(n) WHERE " +++ labelCondition
                   +++ ") RETURN count(n) AS count" |} ]
  else if includes lowerQuestion "list" || includes lowerQuestion "show"
          || includes lowerQuestion "what" then
    [ {| strategy := "list_" +++ first;
         cypher := "MATCH (n) WHERE any(label IN labels(n) WHERE " +++ labelCondition
                   +++ ") RETURN coalesce(n.Name, n.ObjectType, n.LongName, 'Unnamed') AS name, coalesce(n.GlobalId, n.globalId, '') AS globalId, n.nid AS nid LIMIT 20" |} ]
  else [].

(** Strategy 2, exact labels that exist (server.js 307-322): the loop
    over [concept.labels], pushing onto [fallbacks]. *)
Fixpoint exactFallbacks (lowerQuestion : string) (schema : Schema)
    (labelList : list string) (fallbacks : list Fallback) : list Fallback :=
  match labelList with
  | [] => fallbacks
  | label :: rest =>
      let exactLabel := "Ifc" +++ label in
      match objGet schema.(labels) exactLabel with
      | Some _ =>
          if includes lowerQuestion "how many" || includes lowerQuestion "count" then
            exactFallbacks lowerQuestion schema rest
              (fallbacks ++
               [ {| strategy := "exact_count_" +++ exactLabel;
                    cypher := "MATCH (n:`" +++ exactLabel +++ "`) RETURN count(n) AS count" |} ])
          else
            exactFallbacks lowerQuestion schema rest
              (fallbacks ++
               [ {| strategy := "exact_list_" +++ exactLabel;
                    cypher := "MATCH (n:`" +++ exactLabel
                              +++ "`) RETURN coalesce(n.Name, n.ObjectType, 'Unnamed') AS name, coalesce(n.GlobalId, n.globalId, '') AS globalId LIMIT 10" |} ])
      | None => exactFallbacks lowerQuestion schema rest fallbacks
      end
  end.

(** The loop over the concepts (server.js 287-325), which ends at the
    first concept that matches. *)
Fixpoint scanConcepts (lowerQuestion : string) (schema : Schema)
    (cs : list Concept) (fallbacks : list Fallback) : list Fallback :=
  match cs with
  | [] => fallbacks
  | concept :: rest =>
      if conceptMatches lowerQuestion concept then
        exactFallbacks lowerQuestion schema concept.(fragments)
          (fallbacks ++ flexibleFallbacks lowerQuestion concept)
      else scanConcepts lowerQuestion schema rest fallbacks
  end.

(** The general fallbacks (server.js 328-340). *)
Definition generalFallbacks (lowerQuestion : string) : list Fallback :=
  (if includes lowerQuestion "how many" || includes lowerQuestion "count" then
     [ {| strategy := "count_all_elements";
          cypher := "MATCH (n) WHERE any(label IN labels(n) WHERE label STARTS WITH 'Ifc') RETURN count(n) AS count" |} ]
   else [])
  ++
  (if includes lowerQuestion "what" || includes lowerQuestion "show"
      || includes lowerQuestion "list" then
     [ {| strategy := "show_labels";
          cypher := "MATCH (n) RETURN DISTINCT labels(n) AS node_types, count(n) AS count ORDER BY count DESC LIMIT 10" |} ]
   else []).

Definition generateFallbackQueries (question : string) (schema : Schema)
  : list Fallback :=
  let lowerQuestion := toLowerCase question in
  scanConcepts lowerQuestion schema concepts [] ++ generalFallbacks lowerQuestion.

(* ================================================================= *)
(** ** The world: cache variables, allocation, session events *)

Inductive Event : Type :=
| SessionOpen
| SessionRun (query : string)
| SessionClose.

(** A snapshot object: the schema and the address that tells one object
    from another. *)
Record SchemaObject := {
  address : nat;
  snapshot : Schema
}.

(** The module-level variables [schemaCache] and [schemaCacheTime]
    (server.js 21-22), the next free address, and the session events so
    far. *)
Record World := {
  schemaCache : option SchemaObject;
  schemaCacheTime : Z;
  nextAddress : nat;
  trace : list Event
}.

Definition initialWorld : World :=
  {| schemaCache := None; schemaCacheTime := 0; nextAddress := 0; trace := [] |}.

Definition CACHE_DURATION : Z := 300000.

(** Code with effects: it reads and changes the world and returns or
    throws. *)
Definition Eff (A : Type) : Type := World -> Outcome A * World.

Definition ret {A : Type} (a : A) : Eff A := fun w => (Return a, w).

Definition bind {A B : Type} (m : Eff A) (k : A -> Eff B) : Eff B :=
  fun w =>
    match m w with
    | (Return a, w') => k a w'
    | (Throw e, w') => (Throw e, w')
    end.

Notation "x <~ m ;; k" := (bind m (fun x => k))
  (at level 61, m at next level, right associativity).
Notation "m ;;; k" := (bind m (fun _ => k))
  (at level 61, right associativity).

(** [try { m } catch (e) { handler e }] *)
Definition tryCatch {A : Type} (m : Eff A) (handler : string -> Eff A) : Eff A :=
  fun w =>
    match m w with
    | (Return a, w') => (Return a, w')
    | (Throw e, w') => handler e w'
    end.

(** [try { m } finally { cleanup }]: an exception of [cleanup] replaces
    the outcome of [m]. *)
Definition tryFinally {A : Type} (m : Eff A) (cleanup : Eff unit) : Eff A :=
  fun w =>
    match m w with
    | (r, w') =>
        match cleanup w' with
        | (Return _, w'') => (r, w'')
        | (Throw e, w'') => (Throw e, w'')
        end
    end.

Definition liftO {A : Type} (o : Outcome A) : Eff A := fun w => (o, w).

Definition emit (ev : Event) : Eff unit :=
  fun w => (Return tt,
            {| schemaCache := w.(schemaCache);
               schemaCacheTime := w.(schemaCacheTime);
               nextAddress := w.(nextAddress);
               trace := w.(trace) ++ [ev] |}).

(** [driver.session()] and [session.close()] *)
Definition sessionOpen : Eff unit := emit SessionOpen.
Definition sessionClose : Eff unit := emit SessionClose.

(** How many queries the trace holds. *)
Definition runCount (t : list Event) : nat :=
  List.length (filter (fun ev => match ev with SessionRun _ => true | _ => false end) t).

(* ================================================================= *)
(** ** discoverSchema (server.js 26-124) *)

(** The three discovery queries have a fixed shape, so the database's
    answers to them are typed: label and count; the sample columns
    [props], [nid], [name], [globalId]; relationship type and count.
    Each answer is the rows or an exception. *)
Record SampleRow := {
  props : option (list string);
  sampleNid : Scalar;
  sampleName : Scalar;
  sampleGlobalId : Scalar
}.

Record SchemaDb := {
  labelCounts : Outcome (list (string * Z));
  sampleRows : string -> Outcome (list SampleRow);
  relationshipCounts : Outcome (list (string * Z))
}.

Definition labelsQuery : string :=
  join nl
  [ "";
    "            CALL db.labels() YIELD label";
    "            CALL {";
    "                WITH label";
    "                CALL apoc.cypher.run('MATCH (n:' + label + ') RETURN count(n) as count', {})";
    "                YIELD value";
    "                RETURN value.count as count";
    "            }";
    "            RETURN label, count";
    "            ORDER BY count DESC";
    "        " ].

Definition samplesQuery (label : string) : string :=
  join nl
  [ "";
    "                    MATCH (n:`" +++ label +++ "`)";
    "                    WITH n LIMIT 3";
    "                    RETURN keys(n) as props, n.nid as nid, ";
    "                           coalesce(n.Name, n.ObjectType, n.LongName, '') as name,";
    "                           coalesce(n.GlobalId, n.globalId, '') as globalId";
    "                " ].

Definition relationshipsQuery : string :=
  join nl
  [ "";
    "            CALL db.relationshipTypes() YIELD relationshipType";
    "            CALL {";
    "                WITH relationshipType";
    "                CALL apoc.cypher.run('MATCH ()-[r:`' + relationshipType + '`]->() RETURN count(r) as count', {})";
    "                YIELD value";
    "                RETURN value.count as count";
    "            }";
    "            RETURN relationshipType, count";
    "            ORDER BY count DESC";
    "        " ].

(** [session.run(query)] for a discovery query with its typed answer. *)
Definition runTyped {A : Type} (query : string) (answer : Outcome A) : Eff A :=
  emit (SessionRun query) ;;; liftO answer.

(** [properties.add(p)] on a Set of strings in insertion order. *)
Definition addString (set : list string) (p : string) : list string :=
  if arrIncludes set p then set else set ++ [p].

(** The loop over the sample records (server.js 66-74). *)
Fixpoint readSamples (propRecords : list SampleRow)
    (propertySet : list string) (sampleList : list SampleRecord)
  : list string * list SampleRecord :=
  match propRecords with
  | [] => (propertySet, sampleList)
  | propRecord :: rest =>
      let ps := match propRecord.(props) with Some l => l | None => [] end in
      readSamples rest
        (fold_left addString ps propertySet)
        (sampleList ++ [ {| nid := propRecord.(sampleNid);
                            name := propRecord.(sampleName);
                            globalId := propRecord.(sampleGlobalId) |} ])
  end.

(** The loop over the label records (server.js 49-82). *)
Fixpoint discoverLabels (db : SchemaDb) (labelRecords : list (string * Z))
    (labelMap : Obj LabelInfo) : Eff (Obj LabelInfo) :=
  match labelRecords with
  | [] => ret labelMap
  | (label, n) :: rest =>
      if (0 <? n)%Z then
        propRecords <~ runTyped (samplesQuery label) (db.(sampleRows) label) ;;
        let '(propertySet, sampleList) := readSamples propRecords [] [] in
        discoverLabels db rest
          (objSet labelMap label
             {| count := n;
                properties := propertySet;
                samples := firstn 2 sampleList |})
      else discoverLabels db rest labelMap
  end.

(** The loop over the relationship records (server.js 98-104). *)
Fixpoint discoverRelationships (relRecords : list (string * Z))
    (relMap : Obj Z) : Obj Z :=
  match relRecords with
  | [] => relMap
  | (relType, n) :: rest =>
      if (0 <? n)%Z then discoverRelationships rest (objSet relMap relType n)
      else discoverRelationships rest relMap
  end.

(** The schema returned when discovery fails (server.js 113-120). *)
Definition fallbackSchema : Schema :=
  {| labels :=
       [ ("IfcWall", {| count := 0; properties := ["nid"; "Name"; "GlobalId"]; samples := [] |});
         ("IfcDoor", {| count := 0; properties := ["nid"; "Name"; "GlobalId"]; samples := [] |});
         ("IfcWindow", {| count := 0; properties := ["nid"; "Name"; "GlobalId"]; samples := [] |}) ];
     relationships := [] |}.

(** A new snapshot object. *)
Definition allocate (s : Schema) : Eff SchemaObject :=
  fun w => (Return {| address := w.(nextAddress); snapshot := s |},
            {| schemaCache := w.(schemaCache);
               schemaCacheTime := w.(schemaCacheTime);
               nextAddress := S w.(nextAddress);
               trace := w.(trace) |}).

(** [schemaCache = obj; schemaCacheTime = now] *)
Definition storeCache (obj : SchemaObject) (now : Z) : Eff unit :=
  fun w => (Return tt,
            {| schemaCache := Some obj;
               schemaCacheTime := now;
               nextAddress := w.(nextAddress);
               trace := w.(trace) |}).

(** The [try] block of discoverSchema (server.js 34-109). *)
Definition discover (db : SchemaDb) (now : Z) : Eff SchemaObject :=
  labelRecords <~ runTyped labelsQuery db.(labelCounts) ;;
  labelMap <~ discoverLabels db labelRecords [] ;;
  relRecords <~ runTyped relationshipsQuery db.(relationshipCounts) ;;
  let relMap := discoverRelationships relRecords [] in
  obj <~ allocate {| labels := labelMap; relationships := relMap |} ;;
  storeCache obj now ;;;
  ret obj.

(** [now] is the value of [Date.now()] at the call. *)
Definition discoverSchema (db : SchemaDb) (now : Z) : Eff SchemaObject :=
  fun w =>
    match w.(schemaCache) with
    | Some cached =>
        if (now - w.(schemaCacheTime) <? CACHE_DURATION)%Z then (Return cached, w)
        else (sessionOpen ;;;
              tryFinally
                (tryCatch (discover db now) (fun _ => allocate fallbackSchema))
                sessionClose) w
    | None =>
        (sessionOpen ;;;
         tryFinally
           (tryCatch (discover db now) (fun _ => allocate fallbackSchema))
           sessionClose) w
    end.

(* ================================================================= *)
(** ** processQuery (server.js 206-267) *)

Record Attempt := {
  attemptCypher : string;
  source : string
}.

(** What processQuery returns: [{ cypher, result, attempts }]. *)
Record Answer := {
  answerCypher : string;
  result : QueryResult;
  attempts : list Attempt
}.

(** The database as the resolver sees it: the answer to the query run
    as the [n]-th query of the trace, rows or an exception. *)
Definition QueryDb : Type := nat -> string -> Outcome QueryResult.

(** The translator: for a prompt, the content of the first choice
    ([None] when there is none), or an exception. *)
Definition Translator : Type := string -> Outcome (option string).

(** [session.run(query)] *)
Definition sessionRun (db : QueryDb) (query : string) : Eff QueryResult :=
  fun w => (emit (SessionRun query) ;;; liftO (db (runCount w.(trace)) query)) w.

Definition ultimateFallback : string := "MATCH (n) RETURN count(n) AS total_count".

(** server.js 226-227 *)
Definition cleanCypher (content : option string) : string :=
  let c := trim (match content with Some s => s | None => "" end) in
  trim (removeAll "```" 0 false (removeAll "```cypher" 0 false c)).

(** [try { result = await session.run(q) } catch { }]: the new value of
    [result], or [None] when the query threw and [result] is left as it
    was. *)
Definition tryRun (db : QueryDb) (query : string) : Eff (option QueryResult) :=
  tryCatch (r <~ sessionRun db query ;; ret (Some r)) (fun _ => ret None).

(** The loop over the fallbacks (server.js 244-253) on the variables
    [cypher], [result] and [attempts]. *)
Fixpoint tryFallbacks (db : QueryDb) (fallbacks : list Fallback)
    (cy : string) (res : option QueryResult) (tried : list Attempt)
  : Eff (string * option QueryResult * list Attempt) :=
  match fallbacks with
  | [] => ret (cy, res, tried)
  | fallback :: rest =>
      let tried' := tried ++ [ {| attemptCypher := fallback.(cypher);
                                  source := fallback.(strategy) |} ] in
      r <~ tryRun db fallback.(cypher) ;;
      match r with
      | Some res' => ret (fallback.(cypher), Some res', tried')
      | None => tryFallbacks db rest cy res tried'
      end
  end.

(** server.js 241-262: the fallbacks, then the ultimate fallback when
    [result] is still null.  [res] is the value of [result] after the
    generated query was tried. *)
Definition resolveFallbacks (db : QueryDb) (question : string) (schema : Schema)
    (cy : string) (res : option QueryResult) (tried : list Attempt) : Eff Answer :=
  let fallbacks := generateFallbackQueries question schema in
  st <~ tryFallbacks db fallbacks cy res tried ;;
  let '(cy', res', tried') := st in
  match res' with
  | Some r => ret {| answerCypher := cy'; result := r; attempts := tried' |}
  | None =>
      r <~ sessionRun db ultimateFallback ;;
      ret {| answerCypher := ultimateFallback;
             result := r;
             attempts := tried' ++ [ {| attemptCypher := ultimateFallback;
                                        source := "ultimate_fallback" |} ] |}
  end.

(** server.js 214-215 *)
Definition buildPrompt (question : string) (schema : Schema) : string :=
  let schemaHint := generateSchemaHint schema in
  schemaHint +++ nl +++ "Q: " +++ dq +++ question +++ dq +++ nl +++ "A:".

(** The [try] block of processQuery (server.js 213-262). *)
Definition resolve (translator : Translator) (db : QueryDb)
    (question : string) (schema : Schema) : Eff Answer :=
  let prompt := buildPrompt question schema in
  content <~ liftO (translator prompt) ;;
  let cy := cleanCypher content in
  let tried := [ {| attemptCypher := cy; source := "AI" |} ] in
  ai <~ tryRun db cy ;;
  match ai with
  | Some r =>
      if (0 <? List.length r.(records))%nat
      then ret {| answerCypher := cy; result := r; attempts := tried |}
      else resolveFallbacks db question schema cy (Some r) tried
  | None => resolveFallbacks db question schema cy None tried
  end.

Definition processQuery (translator : Translator) (db : QueryDb)
    (question : string) (schema : Schema) : Eff Answer :=
  sessionOpen ;;;
  tryFinally (resolve translator db question schema) sessionClose.

(* ================================================================= *)
(** ** The request handlers (server.js 434-496) *)

(** The debug object of POST /ask (server.js 452-456). *)
Record DebugInfo := {
  schemaLabels : list string;
  queryAttempts : list Attempt;
  resultCount : nat
}.

(** What a handler sends: the status code and the JSON body. *)
Inductive ResponseBody : Type :=
| QuestionRequired
| AskBody (question cypherText answerText : string) (globalIds : list Scalar)
          (debug : option DebugInfo)
| AskFailed (details question : string)
| Healthy
| Unhealthy (message : string)
| SchemaBody (schema : Schema)
| SchemaFailed (message : string).

Record Response := {
  statusCode : nat;
  body : ResponseBody
}.

(** [res.json(b)] and [res.status(n).json(b)] *)
Definition respond (n : nat) (b : ResponseBody) : Eff Response :=
  ret {| statusCode := n; body := b |}.

(** The [try] block of POST /ask (server.js 441-464).  [nodeEnv] is
    [process.env.NODE_ENV]. *)
Definition answerQuestion (nodeEnv : option string) (schemaDb : SchemaDb) (now : Z)
    (translator : Translator) (db : QueryDb) (question : string) : Eff Response :=
  obj <~ discoverSchema schemaDb now ;;
  let schema := obj.(snapshot) in
  answer <~ processQuery translator db question schema ;;
  answerText <~ liftO (formatResult answer.(result) question) ;;
  globalIds <~ liftO (extractGlobalIds answer.(result).(records)) ;;
  let debugInfo :=
    match nodeEnv with
    | Some env =>
        if String.eqb env "development"
        then Some {| schemaLabels := objKeys schema.(labels);
                     queryAttempts := answer.(attempts);
                     resultCount := List.length answer.(result).(records) |}
        else None
    | None => None
    end in
  respond 200 (AskBody question answer.(answerCypher) answerText globalIds debugInfo).

(** POST /ask (server.js 434-474).  [question] is the field of the
    request body: [None] when the body or the field is missing; a
    question that is not a string is outside the model. *)
Definition handleAsk (nodeEnv : option string) (schemaDb : SchemaDb) (now : Z)
    (translator : Translator) (db : QueryDb) (question : option string)
  : Eff Response :=
  match question with
  | None => respond 400 QuestionRequired
  | Some q =>
      if String.eqb q "" then respond 400 QuestionRequired
      else tryCatch (answerQuestion nodeEnv schemaDb now translator db q)
                    (fun message => respond 500 (AskFailed message q))
  end.

(** GET /health (server.js 477-486). *)
Definition handleHealth (db : QueryDb) : Eff Response :=
  tryCatch
    (sessionOpen ;;;
     _ <~ sessionRun db "RETURN 1" ;;
     sessionClose ;;;
     respond 200 Healthy)
    (fun message => respond 503 (Unhealthy message)).

(** GET /schema (server.js 489-496). *)
Definition handleSchema (schemaDb : SchemaDb) (now : Z) : Eff Response :=
  tryCatch
    (obj <~ discoverSchema schemaDb now ;;
     respond 200 (SchemaBody obj.(snapshot)))
    (fun message => respond 500 (SchemaFailed message)).

(* ================================================================= *)
(** * Vocabulary of the properties, and example inputs *)

(* ================================================================= *)
(** ** For formatResult *)

(** A string that ends with [suffix]. *)
Definition endsWith (s suffix : string) : Prop := exists before, s = before +++ suffix.

(** A record with the three columns the list format reads. *)
Definition hasItemColumns (r : Row) : Prop :=
  In "name" (keys r) /\ In "globalId" (keys r) /\ In "nid" (keys r).

(** Fifteen rows of a listing query, with the columns [name],
    [globalId] and [nid]. *)
Definition namedRow (i : Z) : Row :=
  [ ("name", VScalar (SStr "Door"));
    ("globalId", VScalar (SStr ""));
    ("nid", VScalar (SInt i)) ].

Definition fifteenNamedRows : list Row :=
  map namedRow [1; 2; 3; 4; 5; 6; 7; 8; 9; 10; 11; 12; 13; 14; 15]%Z.

(** Fifteen rows that have a [name] column and nothing else. *)
Definition fifteenNameOnlyRows : list Row :=
  repeat [ ("name", VScalar (SStr "Door")) ] 15.

(* ================================================================= *)
(** ** For extractGlobalIds *)

Definition Scalar_eq_dec (a b : Scalar) : {a = b} + {a <> b}.
Proof.
  decide equality; [apply Bool.bool_dec | apply Z.eq_dec | apply string_dec].
Defined.

(** How often [x] occurs in [ids]. *)
Definition occurrences (ids : list Scalar) (x : Scalar) : nat :=
  count_occ Scalar_eq_dec ids x.

(** No string occurs twice. *)
Definition stringsOnce (ids : list Scalar) : Prop :=
  forall s, occurrences ids (SStr s) <= 1.

(** The value [z] is collected from the cell [value] of column [key],
    whatever was collected before. *)
Definition collects (key : string) (value : Value) (z : Scalar) : Prop :=
  forall ids, In z (collectCell ids key value).

(** A record with two nodes: the first has an empty [GlobalId], the
    second an integer one. *)
Definition bagRow : Row :=
  [ ("a", VNode "(1:IfcDoor)" [("GlobalId", SStr "")]);
    ("b", VNode "(2:IfcDoor)" [("GlobalId", SInt 7)]) ].

(** The row of the specification's example: one identifier of 22
    characters in the column [globalId] and in a second column. *)
Definition guidRow : Row :=
  [ ("globalId", VScalar (SStr "1a2b3c4d5e6f7g8h9i0jkl"));
    ("tag", VScalar (SStr "1a2b3c4d5e6f7g8h9i0jkl")) ].

(* ================================================================= *)
(** ** For generateFallbackQueries and generateSchemaHint *)

(** The three kinds of candidate: a flexible one matches labels by
    substring, an exact one names a label of the schema, a general one
    is one of the two fixed queries. *)
Definition isFlexible (f : Fallback) : Prop :=
  includes f.(cypher) "WHERE label CONTAINS '" = true.

Definition isExact (schema : Schema) (f : Fallback) : Prop :=
  exists label rest,
    objGet schema.(labels) label <> None /\
    f.(cypher) = "MATCH (n:`" +++ label +++ "`)" +++ rest.

Definition isGeneral (f : Fallback) : Prop :=
  f.(strategy) = "count_all_elements" \/ f.(strategy) = "show_labels".

(** A schema with doors and slabs. *)
Definition doorSchema : Schema :=
  {| labels :=
       [ ("IfcDoor", {| count := 12; properties := ["Name"; "GlobalId"]; samples := [] |});
         ("IfcSlab", {| count := 4; properties := ["Name"]; samples := [] |}) ];
     relationships := [("CONTAINS", 16%Z)] |}.

(** The mappings kept from a table: the entries with a candidate label
    that exists, each with the candidates that exist. *)
Definition keptMappings (existing : list string)
    (entries : list (string * list string)) : list (string * list string) :=
  map (fun e => (fst e, filter (arrIncludes existing) (snd e)))
      (filter (fun e => existsb (arrIncludes existing) (snd e)) entries).

(* ================================================================= *)
(** ** For discoverSchema and the sessions *)

(** The world [w] with more events, and nothing else changed. *)
Definition withEvents (w : World) (evs : list Event) : World :=
  {| schemaCache := w.(schemaCache);
     schemaCacheTime := w.(schemaCacheTime);
     nextAddress := w.(nextAddress);
     trace := w.(trace) ++ evs |}.

(** Code that only runs queries: all it does to the world is to add
    [SessionRun] events. *)
Definition quiet {A : Type} (m : Eff A) : Prop :=
  forall w, exists queries, snd (m w) = withEvents w (map SessionRun queries).

(** Every label of the schema has a count above zero. *)
Definition labelsPositive (s : Schema) : Prop :=
  Forall (fun entry => (0 < (snd entry).(count))%Z) s.(labels).

(** The cache test of server.js 28. *)
Definition cacheFresh (now : Z) (w : World) : bool :=
  match w.(schemaCache) with
  | Some _ => (now - w.(schemaCacheTime) <? CACHE_DURATION)%Z
  | None => false
  end.

(** The three ways out of discoverSchema: the cached snapshot, a
    discovered snapshot, the fallback after a failed discovery. *)
Inductive ExitPath : Type :=
| CacheHit
| Discovered
| DiscoveryFailed.

Definition exitPath (db : SchemaDb) (now : Z) (w : World) : ExitPath :=
  if cacheFresh now w then CacheHit
  else match fst (discover db now (withEvents w [SessionOpen])) with
       | Return _ => Discovered
       | Throw _ => DiscoveryFailed
       end.

(** The events of a call that opens a session, runs [queries] and
    closes the session. *)
Definition sessionEvents (queries : list string) : list Event :=
  SessionOpen :: map SessionRun queries ++ [SessionClose].

(** A database that answers the discovery queries. *)
Definition doorDb : SchemaDb :=
  {| labelCounts := Return [("IfcDoor", 12%Z); ("IfcSlab", 4%Z); ("IfcRoof", 0%Z)];
     sampleRows := fun label =>
       Return [ {| props := Some ["nid"; "Name"; "GlobalId"];
                   sampleNid := SInt 1;
                   sampleName := SStr label;
                   sampleGlobalId := SStr "1a2b3c4d5e6f7g8h9i0jkl" |} ];
     relationshipCounts := Return [("CONTAINS", 16%Z)] |}.

(** A database without the procedure the labels query calls. *)
Definition brokenDb : SchemaDb :=
  {| labelCounts := Throw "There is no procedure with the name `apoc.cypher.run` registered";
     sampleRows := fun _ => Return [];
     relationshipCounts := Return [] |}.

(** The worlds the server can be in: the initial one, and the one after
    any call of discoverSchema or processQuery. *)
Inductive reachable : World -> Prop :=
| reachable_initial : reachable initialWorld
| reachable_discoverSchema (db : SchemaDb) (now : Z) (w : World) :
    reachable w -> reachable (snd (discoverSchema db now w))
| reachable_processQuery (translator : Translator) (db : QueryDb)
    (question : string) (schema : Schema) (w : World) :
    reachable w -> reachable (snd (processQuery translator db question schema w)).

(** The cached snapshot has positive counts and an address already
    given out. *)
Definition cacheSound (w : World) : Prop :=
  forall cached,
    w.(schemaCache) = Some cached ->
    labelsPositive cached.(snapshot) /\ cached.(address) < w.(nextAddress).

(** How many sessions a trace opens and closes. *)
Definition opened (t : list Event) : nat :=
  List.length (filter (fun ev => match ev with SessionOpen => true | _ => false end) t).

Definition closed (t : list Event) : nat :=
  List.length (filter (fun ev => match ev with SessionClose => true | _ => false end) t).

(* ================================================================= *)
(** ** For processQuery *)

(** A question without a concept keyword and without a counting or
    listing word: it has no fallback candidate. *)
Definition roofQuestion : string := "Is there a roof?".

(** A translator that answers with a query for a label that has no
    nodes. *)
Definition roofTranslator : Translator :=
  fun _ => Return (Some "MATCH (n:IfcRoof) RETURN n").

(** A database that answers every query: one row for the node count,
    no row for anything else. *)
Definition roofDb : QueryDb :=
  fun _ query =>
    if String.eqb query ultimateFallback
    then Return {| records := [[("total_count", VScalar (SInt 16))]] |}
    else Return {| records := [] |}.

(** The translator of the specification's example: valid syntax, zero
    rows. *)
Definition limitZeroTranslator : Translator :=
  fun _ => Return (Some "MATCH (n) RETURN n LIMIT 0").

(* ================================================================= *)
(** ** For the further properties of formatResult *)

(** The result takes the list format: it has a first record with a
    [name] or a [globalId] column and is not one row of one column. *)
Definition listFormat (rows : list Row) : Prop :=
  exists first rest,
    rows = first :: rest /\
    ~ (List.length rows = 1 /\ List.length (keys first) = 1) /\
    (In "name" (keys first) \/ In "globalId" (keys first)).


(* ================================================================= *)
(** ** For the further properties of extractGlobalIds *)

(** What the cell [value] of column [key] can contribute: a string
    cell itself, in a column named like a global id or when it looks
    like an IFC GUID; for a node, the truthy [GlobalId] or [globalId] of
    its properties; nothing otherwise. *)
Definition cellYields (key : string) (value : Value) (z : Scalar) : Prop :=
  match value with
  | VScalar (SStr s) =>
      z = SStr s /\
      (includes (toLowerCase key) "globalid" = true \/ isGuid s = true)
  | VNode _ bag => bagGlobalId bag = Some z
  | _ => False
  end.

(* ================================================================= *)
(** ** For the further properties of generateFallbackQueries *)

(** A schema with every label the concepts can name. *)
Definition fullSchema : Schema :=
  {| labels :=
       map (fun label => ("Ifc" +++ label,
                          {| count := 1; properties := []; samples := [] |}))
           (flat_map fragments concepts);
     relationships := [] |}.

(** For each concept, a counting and a listing question with its first
    keyword. *)
Definition probeQuestions : list string :=
  flat_map (fun c => [ "count " +++ hd "" c.(keywords);
                       "list " +++ hd "" c.(keywords) ]) concepts.

(** The candidates of the probe questions on [fullSchema]. *)
Definition candidatePool : list Fallback :=
  flat_map (fun q => generateFallbackQueries q fullSchema) probeQuestions.

Definition inPool (f : Fallback) : bool :=
  existsb (fun g => String.eqb f.(strategy) g.(strategy)
                    && String.eqb f.(cypher) g.(cypher)) candidatePool.

(** A counting candidate, by its strategy name. *)
Definition isCounting (f : Fallback) : bool :=
  startsWith f.(strategy) "count_" || startsWith f.(strategy) "exact_count_".

(** The question has a counting word, a listing word. *)
Definition countingWord (lq : string) : bool :=
  includes lq "how many" || includes lq "count".

Definition listingWord (lq : string) : bool :=
  includes lq "list" || includes lq "show" || includes lq "what".

(* ================================================================= *)
(** ** For the further properties of discoverSchema *)

(** The records with a count above zero, as the loops of discoverSchema
    test them. *)
Definition positiveCounts (records : list (string * Z)) : list (string * Z) :=
  filter (fun record => (0 <? snd record)%Z) records.

(** A snapshot as discovery shapes it: every relationship type has a
    count above zero, and every label has two samples at most and a
    list of property names without duplicates. *)
Definition tidySchema (s : Schema) : Prop :=
  Forall (fun entry => (0 < snd entry)%Z) s.(relationships)
  /\ Forall (fun entry => List.length (snd entry).(samples) <= 2
                          /\ NoDup (snd entry).(properties)) s.(labels).

(** The labels of a snapshot with their counts. *)
Definition labelCountsOf (s : Schema) : list (string * Z) :=
  map (fun entry => (fst entry, (snd entry).(count))) s.(labels).

(* ================================================================= *)
(** ** For the further properties of processQuery and the handlers *)

(** The attempt recorded for a fallback (server.js 245). *)
Definition attemptOf (f : Fallback) : Attempt :=
  {| attemptCypher := f.(cypher); source := f.(strategy) |}.

(* ================================================================= *)
(** * Properties *)

(** ** The functions on small inputs *)

Example cleanCypher_fenced :
  cleanCypher (Some ("```cypher" +++ nl +++ "MATCH (n) RETURN n" +++ nl +++ "```" +++ nl))
  = "MATCH (n) RETURN n".
Proof. reflexivity. Qed.

Example cleanCypher_no_content : cleanCypher None = "".
Proof. reflexivity. Qed.

Example formatResult_scalar :
  formatResult {| records := [[("spaceName", VScalar (SStr "Lobby"))]] |} "q"
  = Return "Result: Lobby".
Proof. reflexivity. Qed.

Example formatResult_items :
  formatResult
    {| records :=
         [ [("name", VScalar (SStr "Door A")); ("globalId", VScalar (SStr "G1"));
            ("nid", VScalar (SInt 7))];
           [("name", VScalar (SStr "")); ("globalId", VScalar (SStr ""));
            ("nid", VScalar (SInt 8))];
           [("name", VScalar SNull); ("globalId", VScalar (SStr ""));
            ("nid", VScalar SNull)] ] |} "q"
  = Return ("Found 3 result(s):" +++ nl
            +++ "• Door A (ID: G1)" +++ nl
            +++ "• Unnamed (nid: 8)" +++ nl
            +++ "• Unnamed").
Proof. reflexivity. Qed.

Example formatResult_tabular :
  formatResult
    {| records :=
         [ [("node_types", VList [VScalar (SStr "IfcDoor"); VScalar (SStr "IfcElement")]);
            ("count", VScalar (SInt 12))] ] |} "q"
  = Return (join nl
      [ "Results (1/1):";
        "[";
        "  {";
        "    " +++ dq +++ "node_types" +++ dq +++ ": " +++ dq +++ "IfcDoor, IfcElement" +++ dq +++ ",";
        "    " +++ dq +++ "count" +++ dq +++ ": {";
        "      " +++ dq +++ "low" +++ dq +++ ": 12,";
        "      " +++ dq +++ "high" +++ dq +++ ": 0";
        "    }";
        "  }";
        "]" ]).
Proof. reflexivity. Qed.

Example extractGlobalIds_guidRow :
  extractGlobalIds [guidRow] = Return [SStr "1a2b3c4d5e6f7g8h9i0jkl"].
Proof. reflexivity. Qed.

Example hintMappings_doorSchema :
  hintMappings doorSchema = ["- door: IfcDoor"; "- slab: IfcSlab"; "- floor: IfcSlab"].
Proof. reflexivity. Qed.

Example discoverSchema_doorDb :
  let '(r, w) := discoverSchema doorDb 1000 initialWorld in
  option_map (fun obj => objKeys obj.(snapshot).(labels))
    (match r with Return obj => Some obj | Throw _ => None end)
  = Some ["IfcDoor"; "IfcSlab"]
  /\ w.(schemaCacheTime) = 1000%Z
  /\ w.(trace) = sessionEvents [labelsQuery; samplesQuery "IfcDoor";
                                samplesQuery "IfcSlab"; relationshipsQuery].
Proof. repeat split. Qed.

(* ================================================================= *)
(** ** Strings and lists *)

Lemma append_assoc (a b c : string) : (a +++ b) +++ c = a +++ b +++ c.
Proof.
  induction a as [|x a IH]; simpl; [reflexivity | now rewrite IH].
Qed.

Lemma append_nil_r (a : string) : a +++ "" = a.
Proof.
  induction a as [|x a IH]; simpl; [reflexivity | now rewrite IH].
Qed.

Lemma append_length (a b : string) :
  String.length (a +++ b) = String.length a + String.length b.
Proof.
  induction a as [|x a IH]; simpl; [reflexivity | now rewrite IH].
Qed.

Lemma startsWith_append (p rest : string) : startsWith (p +++ rest) p = true.
Proof.
  unfold startsWith.
  induction p as [|x p IH]; simpl.
  - now destruct rest.
  - destruct (ascii_dec x x) as [_|ne]; [exact IH | now elim ne].
Qed.

Lemma startsWith_inv (s p : string) :
  startsWith s p = true -> exists rest, s = p +++ rest.
Proof.
  unfold startsWith. revert s.
  induction p as [|x p IH]; intros s H.
  - now exists s.
  - destruct s as [|y s]; simpl in H; [discriminate|].
    destruct (ascii_dec x y) as [->|_]; [|discriminate].
    destruct (IH s H) as [rest ->]. now exists rest.
Qed.

Lemma includes_unfold (s needle : string) :
  includes s needle =
  if startsWith s needle then true
  else match s with
       | EmptyString => false
       | String _ s' => includes s' needle
       end.
Proof.
  destruct s; reflexivity.
Qed.

(** [includes] finds the needle wherever it occurs. *)
Lemma includes_append (a needle b : string) :
  includes (a +++ needle +++ b) needle = true.
Proof.
  induction a as [|x a IH].
  - simpl append. rewrite includes_unfold, startsWith_append. reflexivity.
  - simpl append. rewrite includes_unfold.
    destruct (startsWith (String x (a +++ needle +++ b)) needle); [reflexivity | exact IH].
Qed.

Lemma includes_inv (s needle : string) :
  includes s needle = true -> exists a b, s = a +++ needle +++ b.
Proof.
  induction s as [|x s IH]; rewrite includes_unfold; intros H.
  - destruct (startsWith "" needle) eqn:E; [|discriminate].
    destruct (startsWith_inv _ _ E) as [rest Es]. exists "", rest. exact Es.
  - destruct (startsWith (String x s) needle) eqn:E.
    + destruct (startsWith_inv _ _ E) as [rest ->]. now exists "", rest.
    + destruct (IH H) as (a & b & ->). now exists (String x a), b.
Qed.

Lemma substring_all (s : string) : substring 0 (String.length s) s = s.
Proof.
  induction s as [|x s IH]; simpl; [reflexivity | now rewrite IH].
Qed.

Lemma substring_append (a b : string) :
  substring (String.length a) (String.length b) (a +++ b) = b.
Proof.
  induction a as [|x a IH]; simpl; [apply substring_all | exact IH].
Qed.

(** The last characters of a string that ends with [suffix] are
    [suffix]. *)
Lemma endsWith_substring (s suffix : string) :
  endsWith s suffix ->
  substring (String.length s - String.length suffix) (String.length suffix) s = suffix.
Proof.
  intros [before ->].
  rewrite append_length.
  replace (String.length before + String.length suffix - String.length suffix)
    with (String.length before) by lia.
  apply substring_append.
Qed.

(** An element of a joined array occurs in the joined string. *)
Lemma join_In (sep x : string) (l : list string) :
  In x l -> exists a b, join sep l = a +++ x +++ b.
Proof.
  induction l as [|y l IH]; [intros []|].
  intros [->|H].
  - destruct l as [|z l].
    + exists "", "". simpl. now rewrite append_nil_r.
    + exists "", (sep +++ join sep (z :: l)). reflexivity.
  - destruct (IH H) as (a & b & E).
    destruct l as [|z l]; [destruct H|].
    exists (y +++ sep +++ a), b.
    change (join sep (y :: z :: l)) with (y +++ sep +++ join sep (z :: l)).
    rewrite E. now rewrite !append_assoc.
Qed.

Lemma Forall_firstn_prefix {A : Type} (P : A -> Prop) (n : nat) (l : list A) :
  Forall P l -> Forall P (firstn n l).
Proof.
  intros H. revert n.
  induction H as [|x l Hx _ IH]; intros [|n]; simpl; auto.
Qed.

Lemma mapO_length {A B : Type} (f : A -> Outcome B) (l : list A) (out : list B) :
  mapO f l = Return out -> List.length out = List.length l.
Proof.
  revert out. induction l as [|x l IH]; simpl; intros out H.
  - now inversion H.
  - destruct (f x); simpl in H; [|discriminate].
    destruct (mapO f l) as [ys|]; simpl in H; [|discriminate].
    inversion H. simpl. now rewrite (IH ys).
Qed.

(* ================================================================= *)
(** ** Records *)

(** [get] returns the cell of every column the record has. *)
Lemma get_column (r : Row) (key : string) :
  In key (keys r) -> exists v, get r key = Return v.
Proof.
  intros H. unfold get.
  assert (exists kv, find (fun kv => String.eqb (fst kv) key) r = Some kv) as [kv ->].
  { unfold keys in H. induction r as [|[k v] r IH]; simpl in *; [destruct H|].
    destruct (String.eqb_spec k key) as [_|ne]; [eauto|].
    destruct H as [H|H]; [now elim ne | exact (IH H)]. }
  eauto.
Qed.

Lemma get_missing (r : Row) (key : string) :
  ~ In key (keys r) -> exists e, get r key = Throw e.
Proof.
  unfold get, keys. intros H.
  destruct (find (fun kv => String.eqb (fst kv) key) r) as [[k v]|] eqn:E.
  - apply find_some in E as [Hin Hk]. simpl in Hk.
    apply String.eqb_eq in Hk. subst k.
    elim H. now apply (in_map fst) in Hin.
  - eauto.
Qed.

Lemma arrIncludes_In (arr : list string) (x : string) :
  arrIncludes arr x = true <-> In x arr.
Proof.
  unfold arrIncludes. rewrite existsb_exists. split.
  - intros (y & H & E). apply String.eqb_eq in E. now subst.
  - intros H. exists x. split; [exact H | apply String.eqb_refl].
Qed.

(* ================================================================= *)
(** ** formatResult *)

Lemma formatItem_bullet (r : Row) :
  hasItemColumns r -> exists rest, formatItem r = Return ("• " +++ rest).
Proof.
  intros (Hn & Hg & Hi). unfold formatItem.
  destruct (get_column _ _ Hn) as [n ->].
  destruct (get_column _ _ Hg) as [g ->].
  destruct (get_column _ _ Hi) as [i ->].
  cbv [bindO]. eexists. reflexivity.
Qed.

Lemma formatItems_bullets (rows : list Row) :
  Forall hasItemColumns rows ->
  exists items,
    mapO formatItem rows = Return items /\
    Forall (fun item => startsWith item "• " = true) items.
Proof.
  induction 1 as [|r rows Hr _ (items & E & Hitems)]; simpl.
  - now exists [].
  - destruct (formatItem_bullet r Hr) as [rest ->]. rewrite E. simpl.
    exists (("• " +++ rest) :: items). split; [reflexivity|].
    constructor; [apply startsWith_append | exact Hitems].
Qed.

(** C4, as stated, fails.  For fifteen rows with the columns [name],
    [globalId] and [nid] the text does not end with "...and 5 more": the
    source writes "... and 5 more", with a space after the dots.  And
    for fifteen rows that expose a [name] column only, no text is
    rendered at all: reading the [globalId] column throws. *)
Lemma formatResult_claimed_suffix_fails :
  (exists text,
     formatResult {| records := fifteenNamedRows |} "list all doors" = Return text /\
     ~ endsWith text "...and 5 more")
  /\ (exists e,
        formatResult {| records := fifteenNameOnlyRows |} "list all doors" = Throw e).
Proof.
  split.
  - eexists. split; [vm_compute; reflexivity|].
    intros H. apply endsWith_substring in H. vm_compute in H. discriminate H.
  - eexists. vm_compute. reflexivity.
Qed.

(** C4, amended.  formatResult returns "No results found." for zero
    rows; "Found 5 item(s)." for one row with one column whose name
    contains "count" in any case and whose value is 5; and for fifteen
    rows that have the columns [name], [globalId] and [nid], the line
    "Found 15 result(s):", then exactly ten bulleted entries, one for
    each of the first ten rows, then the line "... and 5 more". *)
Theorem formatResult_cases (question : string) :
  formatResult {| records := [] |} question = Return "No results found."
  /\ (forall key,
        includes (toLowerCase key) "count" = true ->
        formatResult {| records := [[(key, VScalar (SInt 5))]] |} question
        = Return "Found 5 item(s).")
  /\ (forall rows,
        List.length rows = 15 ->
        Forall hasItemColumns rows ->
        exists items,
          mapO formatItem (firstn 10 rows) = Return items /\
          List.length items = 10 /\
          Forall (fun item => startsWith item "• " = true) items /\
          formatResult {| records := rows |} question
          = Return ("Found 15 result(s):" +++ nl +++ join nl items
                    +++ nl +++ "... and 5 more")).
Proof.
  split; [reflexivity|]. split.
  - intros key Hkey. unfold formatResult. cbn [records List.length keys map fst].
    cbn [Nat.eqb andb nth getIndex nth_error snd bindO]. rewrite Hkey. reflexivity.
  - intros rows Hlen Hcols.
    assert (Hten : Forall hasItemColumns (firstn 10 rows)).
    { now apply Forall_firstn_prefix. }
    destruct (formatItems_bullets _ Hten) as (items & E & Hbullets).
    exists items. split; [exact E|].
    assert (Hitems : List.length items = 10).
    { rewrite (mapO_length _ _ _ E), length_firstn, Hlen. reflexivity. }
    split; [exact Hitems|]. split; [exact Hbullets|].
    unfold formatResult. cbn [records].
    destruct rows as [|first rest]; [discriminate Hlen|].
    rewrite Hlen. cbn [Nat.eqb andb].
    assert (Hname : arrIncludes (keys first) "name" = true).
    { apply arrIncludes_In. inversion Hcols as [|? ? (Hn & _) _]. exact Hn. }
    rewrite Hname. cbn [orb]. unfold maxRows. rewrite E. cbn [bindO].
    change (10 <? 15)%nat with true. cbv iota.
    change (natToString 15) with "15".
    change (natToString (15 - 10)) with "5".
    rewrite !append_assoc. reflexivity.
Qed.

Lemma formatResult_cases_witness :
  exists items,
    mapO formatItem (firstn 10 fifteenNamedRows) = Return items /\
    List.length items = 10 /\
    Forall (fun item => startsWith item "• " = true) items /\
    formatResult {| records := fifteenNamedRows |} "list all doors"
    = Return ("Found 15 result(s):" +++ nl +++ join nl items
              +++ nl +++ "... and 5 more").
Proof.
  refine (proj2 (proj2 (formatResult_cases "list all doors")) fifteenNamedRows _ _).
  - reflexivity.
  - repeat (apply Forall_cons; [repeat split; simpl; auto 6|]). apply Forall_nil.
Defined.

(** C10.  The text formatResult returns, or the exception it throws,
    depends on the result only: two questions give the same outcome. *)
Theorem formatResult_ignores_question (result : QueryResult) (q1 q2 : string) :
  formatResult result q1 = formatResult result q2.
Proof.
  destruct result as [rows]. destruct rows as [|first rest]; reflexivity.
Qed.

(* ================================================================= *)
(** ** extractGlobalIds *)

Lemma scalarEqb_eq (a b : Scalar) : scalarEqb a b = true <-> a = b.
Proof.
  destruct a, b; simpl; try (split; [discriminate | congruence]);
    try (split; congruence).
  - rewrite Bool.eqb_true_iff. split; congruence.
  - rewrite Z.eqb_eq. split; congruence.
  - rewrite String.eqb_eq. split; congruence.
Qed.

Lemma existsb_scalarEqb (x : Scalar) (ids : list Scalar) :
  existsb (scalarEqb x) ids = true <-> In x ids.
Proof.
  rewrite existsb_exists. split.
  - intros (y & H & E). apply scalarEqb_eq in E. now subst.
  - intros H. exists x. split; [exact H | now apply scalarEqb_eq].
Qed.

Lemma setAdd_new (ids : list Scalar) (x : Scalar) : In x (setAdd ids x).
Proof.
  unfold setAdd.
  destruct x; try (apply in_or_app; right; now left);
    destruct (existsb _ ids) eqn:E;
    try (now apply existsb_scalarEqb);
    apply in_or_app; right; now left.
Qed.

Lemma setAdd_keeps (ids : list Scalar) (x y : Scalar) :
  In y ids -> In y (setAdd ids x).
Proof.
  intros H. unfold setAdd.
  destruct x; try (apply in_or_app; now left);
    destruct (existsb _ ids); auto; apply in_or_app; now left.
Qed.

Lemma occurrences_snoc (ids : list Scalar) (x y : Scalar) :
  occurrences (ids ++ [x]) y =
  occurrences ids y + (if Scalar_eq_dec x y then 1 else 0).
Proof.
  unfold occurrences. rewrite count_occ_app. simpl.
  destruct (Scalar_eq_dec x y); reflexivity.
Qed.

Lemma setAdd_stringsOnce (ids : list Scalar) (x : Scalar) :
  stringsOnce ids -> stringsOnce (setAdd ids x).
Proof.
  intros H s. unfold setAdd.
  assert (Hother : x <> SStr s -> occurrences (ids ++ [x]) (SStr s) <= 1).
  { intros ne. rewrite occurrences_snoc.
    destruct (Scalar_eq_dec x (SStr s)); [contradiction|].
    rewrite Nat.add_0_r. apply H. }
  destruct x as [|b|n|t]; try (apply Hother; discriminate).
  - destruct (existsb _ ids); [apply H | apply Hother; discriminate].
  - destruct (existsb _ ids); [apply H | apply Hother; discriminate].
  - destruct (existsb (scalarEqb (SStr t)) ids) eqn:E; [apply H|].
    destruct (string_dec t s) as [->|ne].
    + rewrite occurrences_snoc.
      destruct (Scalar_eq_dec (SStr s) (SStr s)) as [_|ne]; [|now elim ne].
      assert (Hnot : ~ In (SStr s) ids).
      { intros Hin. apply existsb_scalarEqb in Hin. congruence. }
      unfold occurrences.
      rewrite (proj1 (count_occ_not_In Scalar_eq_dec ids (SStr s)) Hnot).
      reflexivity.
    + apply Hother. congruence.
Qed.

(** What the extractor takes from a property bag. *)
Lemma bagGlobalId_spec (properties : Obj Scalar) (g : Scalar) :
  bagGlobalId properties = Some g <->
  scalarTruthy g = true /\
  (objGet properties "GlobalId" = Some g \/
   (objGet properties "globalId" = Some g /\
    forall g0, objGet properties "GlobalId" = Some g0 -> scalarTruthy g0 = false)).
Proof.
  unfold bagGlobalId.
  destruct (objGet properties "GlobalId") as [g0|];
    [destruct (scalarTruthy g0) eqn:T0|];
    try (destruct (objGet properties "globalId") as [g1|];
         [destruct (scalarTruthy g1) eqn:T1|]);
    cbv beta iota; rewrite ?T0, ?T1;
    (split; [intros H | intros [T [H|[H H']]]]);
    try discriminate;
    try (inversion H; subst; clear H);
    try congruence;
    try (specialize (H' _ eq_refl); congruence);
    try (split; [assumption|]);
    try (left; reflexivity);
    try (right; split; [reflexivity|]; intros ? Hx; inversion Hx; subst; assumption).
Qed.

Lemma collects_guid (key s : string) :
  isGuid s = true -> collects key (VScalar (SStr s)) (SStr s).
Proof.
  intros H ids. unfold collectCell. rewrite H.
  destruct (includes (toLowerCase key) "globalid"); apply setAdd_new.
Qed.

Lemma collects_globalid_column (key s : string) :
  includes (toLowerCase key) "globalid" = true ->
  collects key (VScalar (SStr s)) (SStr s).
Proof.
  intros H ids. unfold collectCell. rewrite H. apply setAdd_new.
Qed.

Lemma collects_bag (key text : string) (properties : Obj Scalar) (g : Scalar) :
  bagGlobalId properties = Some g -> collects key (VNode text properties) g.
Proof.
  intros H ids. unfold collectCell. rewrite H. apply setAdd_new.
Qed.

Lemma collectCell_keeps (ids : list Scalar) (key : string) (value : Value) (y : Scalar) :
  In y ids -> In y (collectCell ids key value).
Proof.
  intros H. unfold collectCell.
  destruct value as [[| | |s]| |text properties]; auto.
  - destruct (includes _ _); [now apply setAdd_keeps|].
    destruct (isGuid s); [now apply setAdd_keeps | exact H].
  - destruct (bagGlobalId properties); [now apply setAdd_keeps | exact H].
Qed.

Lemma collectCell_stringsOnce (ids : list Scalar) (key : string) (value : Value) :
  stringsOnce ids -> stringsOnce (collectCell ids key value).
Proof.
  intros H. unfold collectCell.
  destruct value as [[| | |s]| |text properties]; auto.
  - destruct (includes _ _); [now apply setAdd_stringsOnce|].
    destruct (isGuid s); [now apply setAdd_stringsOnce | exact H].
  - destruct (bagGlobalId properties); [now apply setAdd_stringsOnce | exact H].
Qed.

(** The loop over the columns of one record returns, keeps what it had,
    and collects from every column it visits. *)
Lemma collectRecord_spec (record : Row) (ks : list string) :
  incl ks (keys record) ->
  forall ids, exists out,
    collectRecord record ks ids = Return out /\
    incl ids out /\
    (stringsOnce ids -> stringsOnce out) /\
    (forall key value z,
        In key ks -> get record key = Return value -> collects key value z ->
        In z out).
Proof.
  induction ks as [|key ks IH]; intros Hks ids; simpl.
  - exists ids. repeat split; auto using incl_refl. intros ? ? ? [].
  - destruct (get_column record key (Hks key (or_introl eq_refl))) as [value E].
    rewrite E. simpl.
    destruct (IH (fun k Hk => Hks k (or_intror Hk)) (collectCell ids key value))
      as (out & Eout & Hincl & Honce & Hcol).
    exists out. split; [exact Eout|]. split; [|split].
    + intros y Hy. apply Hincl. now apply collectCell_keeps.
    + intros H. apply Honce. now apply collectCell_stringsOnce.
    + intros key' value' z [<-|Hin] Hget Hz.
      * rewrite E in Hget. inversion Hget; subst. apply Hincl, Hz.
      * eapply Hcol; eauto.
Qed.

Lemma collectRecords_spec (records : list Row) :
  forall ids, exists out,
    collectRecords records ids = Return out /\
    incl ids out /\
    (stringsOnce ids -> stringsOnce out) /\
    (forall record key value z,
        In record records -> In key (keys record) ->
        get record key = Return value -> collects key value z ->
        In z out).
Proof.
  induction records as [|record records IH]; intros ids; simpl.
  - exists ids. repeat split; auto using incl_refl. intros ? ? ? ? [].
  - destruct (collectRecord_spec record (keys record) (incl_refl _) ids)
      as (mid & Emid & Hincl1 & Honce1 & Hcol1).
    rewrite Emid. simpl.
    destruct (IH mid) as (out & Eout & Hincl2 & Honce2 & Hcol2).
    exists out. split; [exact Eout|]. split; [|split].
    + intros y Hy. auto.
    + auto.
    + intros record' key value z [<-|Hin] Hkey Hget Hz.
      * apply Hincl2. eapply Hcol1; eauto.
      * eapply Hcol2; eauto.
Qed.

Lemma get_Return_column (r : Row) (key : string) (v : Value) :
  get r key = Return v -> In key (keys r).
Proof.
  intros H. destruct (in_dec string_dec key (keys r)) as [Hin|Hout]; [exact Hin|].
  destruct (get_missing r key Hout) as [e E]. congruence.
Qed.

(** C7, as stated, fails.  The first node of [bagRow] has a [GlobalId]
    field and its value is not collected; the value collected from the
    second node is not a string. *)
Lemma extractGlobalIds_present_field_skipped :
  exists ids,
    extractGlobalIds [bagRow] = Return ids /\
    get bagRow "a" = Return (VNode "(1:IfcDoor)" [("GlobalId", SStr "")]) /\
    objGet [("GlobalId", SStr "")] "GlobalId" = Some (SStr "") /\
    ~ In (SStr "") ids /\
    In (SInt 7) ids.
Proof.
  exists [SInt 7]. repeat split; try reflexivity.
  - intros [H|[]]. discriminate H.
  - now left.
Qed.

(** C7, amended.  extractGlobalIds returns, without throwing, a
    collection in which no string occurs twice, such that: a string
    cell that matches the 22-character pattern is collected whatever
    its column; a string cell in a column whose name contains
    "globalid" in any case is collected; from a property-bag cell the
    value of [GlobalId] is collected when it is truthy, otherwise the
    value of [globalId] when that is truthy; and a 22-character
    identifier found in two columns of a row occurs exactly once. *)
Theorem extractGlobalIds_collects (rows : list Row) :
  exists ids,
    extractGlobalIds rows = Return ids /\
    stringsOnce ids /\
    (forall record key s,
        In record rows ->
        get record key = Return (VScalar (SStr s)) ->
        isGuid s = true \/ includes (toLowerCase key) "globalid" = true ->
        In (SStr s) ids) /\
    (forall record key text bag g,
        In record rows ->
        get record key = Return (VNode text bag) ->
        scalarTruthy g = true ->
        objGet bag "GlobalId" = Some g \/
        (objGet bag "globalId" = Some g /\
         forall g0, objGet bag "GlobalId" = Some g0 -> scalarTruthy g0 = false) ->
        In g ids) /\
    (forall record key1 key2 s,
        In record rows ->
        key1 <> key2 ->
        get record key1 = Return (VScalar (SStr s)) ->
        get record key2 = Return (VScalar (SStr s)) ->
        isGuid s = true ->
        occurrences ids (SStr s) = 1).
Proof.
  destruct (collectRecords_spec rows []) as (ids & E & _ & Honce & Hcol).
  assert (Hstr : forall record key s,
             In record rows ->
             get record key = Return (VScalar (SStr s)) ->
             isGuid s = true \/ includes (toLowerCase key) "globalid" = true ->
             In (SStr s) ids).
  { intros record key s Hrec Hget Hs.
    apply (Hcol record key (VScalar (SStr s))); auto.
    - now apply get_Return_column in Hget.
    - destruct Hs; [now apply collects_guid | now apply collects_globalid_column]. }
  assert (Hnone : stringsOnce ids).
  { apply Honce. intros s. apply Nat.le_0_l. }
  exists ids. split; [exact E|]. split; [exact Hnone|].
  split; [exact Hstr|]. split.
  - intros record key text bag g Hrec Hget Ht Hg.
    apply (Hcol record key (VNode text bag)); auto.
    + now apply get_Return_column in Hget.
    + apply collects_bag. apply bagGlobalId_spec. auto.
  - intros record key1 key2 s Hrec _ Hget1 _ Hs.
    assert (Hin : In (SStr s) ids) by (eapply Hstr; eauto).
    apply (count_occ_In Scalar_eq_dec) in Hin.
    specialize (Hnone s). unfold occurrences in *. lia.
Qed.

Lemma extractGlobalIds_collects_witness :
  exists ids,
    extractGlobalIds [guidRow] = Return ids /\
    occurrences ids (SStr "1a2b3c4d5e6f7g8h9i0jkl") = 1.
Proof.
  destruct (extractGlobalIds_collects [guidRow]) as (ids & E & _ & _ & _ & Hone).
  exists ids. split; [exact E|].
  apply (Hone guidRow "globalId" "tag").
  - now left.
  - discriminate.
  - reflexivity.
  - reflexivity.
  - reflexivity.
Defined.

(* ================================================================= *)
(** ** generateFallbackQueries *)

(** The exact-label loop pushes onto what it is given. *)
Lemma exactFallbacks_push (lq : string) (schema : Schema)
    (labelList : list string) (fallbacks : list Fallback) :
  exactFallbacks lq schema labelList fallbacks
  = fallbacks ++ exactFallbacks lq schema labelList [].
Proof.
  revert fallbacks.
  induction labelList as [|label rest IH]; intros fallbacks;
    cbn [exactFallbacks].
  - now rewrite app_nil_r.
  - destruct (objGet (labels schema) ("Ifc" +++ label)); [|apply IH].
    destruct (includes lq "how many" || includes lq "count");
      rewrite IH; symmetry; rewrite IH; now rewrite app_assoc.
Qed.

(** The scan of a list of concepts whose first match is [concept]. *)
Lemma scanConcepts_first_match (lq : string) (schema : Schema)
    (before after : list Concept) (concept : Concept) (fallbacks : list Fallback) :
  Forall (fun c => conceptMatches lq c = false) before ->
  conceptMatches lq concept = true ->
  scanConcepts lq schema (before ++ concept :: after) fallbacks
  = fallbacks ++ flexibleFallbacks lq concept
    ++ exactFallbacks lq schema concept.(fragments) [].
Proof.
  intros Hbefore Hmatch.
  induction Hbefore as [|c before Hc _ IH]; cbn [app scanConcepts].
  - rewrite Hmatch, exactFallbacks_push. now rewrite app_assoc.
  - rewrite Hc. exact IH.
Qed.

Lemma scanConcepts_no_match (lq : string) (schema : Schema)
    (cs : list Concept) (fallbacks : list Fallback) :
  Forall (fun c => conceptMatches lq c = false) cs ->
  scanConcepts lq schema cs fallbacks = fallbacks.
Proof.
  induction 1 as [|c cs Hc _ IH]; simpl; [reflexivity|].
  now rewrite Hc.
Qed.

Lemma flexibleFallbacks_flexible (lq : string) (concept : Concept) :
  In concept concepts ->
  List.length (flexibleFallbacks lq concept) <= 1 /\
  Forall isFlexible (flexibleFallbacks lq concept).
Proof.
  intros H. unfold flexibleFallbacks.
  destruct (includes lq "how many" || includes lq "count");
    [|destruct (includes lq "list" || includes lq "show" || includes lq "what")];
    (split; [simpl; lia|]); try apply Forall_nil;
    simpl in H; decompose [or] H; try contradiction; subst concept;
    (apply Forall_cons; [vm_compute; reflexivity | apply Forall_nil]).
Qed.

Lemma exactFallbacks_exact (lq : string) (schema : Schema) (labelList : list string) :
  Forall (isExact schema) (exactFallbacks lq schema labelList []).
Proof.
  induction labelList as [|label rest IH]; cbn [exactFallbacks].
  - apply Forall_nil.
  - destruct (objGet (labels schema) ("Ifc" +++ label)) as [info|] eqn:E; [|exact IH].
    destruct (includes lq "how many" || includes lq "count");
      rewrite exactFallbacks_push; apply Forall_app; (split; [|exact IH]);
      (apply Forall_cons; [|apply Forall_nil]);
      exists ("Ifc" +++ label); eexists; (split; [congruence | reflexivity]).
Qed.

Lemma generalFallbacks_general (lq : string) :
  Forall isGeneral (generalFallbacks lq).
Proof.
  unfold generalFallbacks, isGeneral.
  destruct (includes lq "how many" || includes lq "count");
    destruct (includes lq "what" || includes lq "show" || includes lq "list");
    cbn [app];
    repeat first [apply Forall_nil | apply Forall_cons]; simpl; auto.
Qed.

(** C6.  generateFallbackQueries is a function of the question and the
    schema.  The scan of [concepts] ends at the first concept with a
    keyword in the lower-cased question: the candidates are then that
    concept's flexible candidate (at most one, matching labels by
    substring), its exact-label candidates, and the general ones, in
    this order; without such a concept they are the general ones.  For
    "list all doors with names" and a schema with the label IfcDoor the
    candidates are [list_door], a flexible listing query, then
    [exact_list_IfcDoor], then [show_labels]. *)
Theorem generateFallbackQueries_order (question : string) (schema : Schema) :
  let lq := toLowerCase question in
  (forall before concept after,
      concepts = before ++ concept :: after ->
      Forall (fun c => conceptMatches lq c = false) before ->
      conceptMatches lq concept = true ->
      exists flexible exact general,
        generateFallbackQueries question schema = flexible ++ exact ++ general /\
        flexible = flexibleFallbacks lq concept /\
        exact = exactFallbacks lq schema concept.(fragments) [] /\
        general = generalFallbacks lq /\
        List.length flexible <= 1 /\
        Forall isFlexible flexible /\
        Forall (isExact schema) exact /\
        Forall isGeneral general)
  /\ (Forall (fun c => conceptMatches lq c = false) concepts ->
      generateFallbackQueries question schema = generalFallbacks lq)
  /\ (forall info,
        objGet schema.(labels) "IfcDoor" = Some info ->
        generateFallbackQueries "list all doors with names" schema =
        [ {| strategy := "list_door";
             cypher := "MATCH (n) WHERE any(label IN labels(n) WHERE label CONTAINS 'Door') RETURN coalesce(n.Name, n.ObjectType, n.LongName, 'Unnamed') AS name, coalesce(n.GlobalId, n.globalId, '') AS globalId, n.nid AS nid LIMIT 20" |};
          {| strategy := "exact_list_IfcDoor";
             cypher := "MATCH (n:`IfcDoor`) RETURN coalesce(n.Name, n.ObjectType, 'Unnamed') AS name, coalesce(n.GlobalId, n.globalId, '') AS globalId LIMIT 10" |};
          {| strategy := "show_labels";
             cypher := "MATCH (n) RETURN DISTINCT labels(n) AS node_types, count(n) AS count ORDER BY count DESC LIMIT 10" |} ]).
Proof.
  intros lq. split; [|split].
  - intros before concept after Hsplit Hbefore Hmatch.
    assert (Hin : In concept concepts).
    { rewrite Hsplit. apply in_or_app. right. now left. }
    destruct (flexibleFallbacks_flexible lq concept Hin) as [Hlen Hflex].
    exists (flexibleFallbacks lq concept),
           (exactFallbacks lq schema concept.(fragments) []),
           (generalFallbacks lq).
    repeat split; auto using exactFallbacks_exact, generalFallbacks_general.
    unfold generateFallbackQueries. fold lq. rewrite Hsplit.
    rewrite (scanConcepts_first_match lq schema before after concept []) by assumption.
    cbn [app]. now rewrite app_assoc.
  - intros Hnone. unfold generateFallbackQueries. fold lq.
    now rewrite scanConcepts_no_match.
  - intros info Hdoor. unfold generateFallbackQueries.
    change (toLowerCase "list all doors with names") with "list all doors with names".
    cbv - [objGet labels]. rewrite Hdoor. reflexivity.
Qed.

Lemma generateFallbackQueries_order_witness :
  map strategy (generateFallbackQueries "How many FLOORS are there?" doorSchema)
  = ["count_slab"; "exact_count_IfcSlab"; "count_all_elements"]
  /\ map strategy (generateFallbackQueries "list all doors with names" doorSchema)
     = ["list_door"; "exact_list_IfcDoor"; "show_labels"].
Proof.
  split.
  - destruct (proj1 (generateFallbackQueries_order "How many FLOORS are there?" doorSchema)
                (firstn 3 concepts) (nth 3 concepts {| keywords := []; fragments := [] |})
                (skipn 4 concepts) eq_refl)
      as (flexible & exact & general & E & -> & -> & -> & _).
    + repeat constructor.
    + reflexivity.
    + rewrite E. reflexivity.
  - rewrite (proj2 (proj2 (generateFallbackQueries_order "list all doors with names"
                             doorSchema))
               (Build_LabelInfo 12 ["Name"; "GlobalId"] []) eq_refl).
    reflexivity.
Defined.

(* ================================================================= *)
(** ** generateSchemaHint *)

Lemma includes_before (s b needle : string) :
  includes s needle = true -> includes (s +++ b) needle = true.
Proof.
  intros H. destruct (includes_inv _ _ H) as (x & y & ->).
  rewrite !append_assoc. apply includes_append.
Qed.

Lemma includes_after (a s needle : string) :
  includes s needle = true -> includes (a +++ s) needle = true.
Proof.
  intros H. destruct (includes_inv _ _ H) as (x & y & ->).
  rewrite <- append_assoc. apply includes_append.
Qed.

Lemma includes_join (sep x needle : string) (l : list string) :
  In x l -> includes x needle = true -> includes (join sep l) needle = true.
Proof.
  intros Hin Hx. destruct (join_In sep x l Hin) as (a & b & ->).
  apply includes_after, includes_before, Hx.
Qed.

Lemma objSet_fresh {V : Type} (o : Obj V) (k : string) (v : V) :
  ~ In k (objKeys o) -> objSet o k v = o ++ [(k, v)].
Proof.
  induction o as [|[k' v'] o IH]; simpl; intros H; [reflexivity|].
  destruct (String.eqb_spec k' k) as [->|_]; [elim H; now left|].
  rewrite IH; [reflexivity|]. intros Hin. apply H. now right.
Qed.

Lemma filter_nonempty {A : Type} (p : A -> bool) (l : list A) :
  (0 <? List.length (filter p l))%nat = existsb p l.
Proof.
  induction l as [|x l IH]; simpl; [reflexivity|].
  destruct (p x); simpl; [reflexivity | exact IH].
Qed.

Lemma findMappings_kept (existing : list string)
    (entries : list (string * list string)) (acc : Obj (list string)) :
  NoDup (map fst entries) ->
  (forall k, In k (map fst entries) -> ~ In k (objKeys acc)) ->
  findMappings existing entries acc = acc ++ keptMappings existing entries.
Proof.
  unfold keptMappings. revert acc.
  induction entries as [|[concept possible] rest IH]; intros acc Hnd Hacc; simpl.
  - now rewrite app_nil_r.
  - inversion Hnd as [|? ? Hfresh Hnd']; subst.
    rewrite filter_nonempty.
    destruct (existsb (arrIncludes existing) possible) eqn:E; simpl.
    + rewrite objSet_fresh by (apply Hacc; now left).
      rewrite IH; [now rewrite <- app_assoc | exact Hnd' |].
      intros k Hk Hin. unfold objKeys in Hin. rewrite map_app in Hin.
      apply in_app_or in Hin as [Hin|[<-|[]]].
      * apply (Hacc k); [now right | exact Hin].
      * exact (Hfresh Hk).
    + apply IH; [exact Hnd'|]. intros k Hk. apply Hacc. now right.
Qed.

Lemma elementMappings_keys_distinct : NoDup (map fst elementMappings).
Proof.
  repeat (apply NoDup_cons; [simpl; intuition discriminate|]). apply NoDup_nil.
Qed.

(** C9.  generateSchemaHint is a function of the schema.  Its text
    contains every label name of the schema.  It is laid out as the
    fixed introduction, one line per label, the mappings title, one
    line per kept mapping, the relationships title, the relationship
    names, and the fixed rest; a concept has a mapping line exactly
    when one of its candidate labels is a label of the schema, and the
    line lists the candidates that are; the relationship names are the
    first ten at most. *)
Theorem generateSchemaHint_contents (schema : Schema) :
  let existing := objKeys schema.(labels) in
  Forall (fun label => includes (generateSchemaHint schema) label = true) existing
  /\ exists actual names,
       generateSchemaHint schema
       = join nl hintIntro +++ nl
         +++ join nl (map (labelLine schema.(labels)) existing) +++ nl
         +++ join nl hintMappingsTitle +++ nl
         +++ join nl (map mappingLine actual) +++ nl
         +++ join nl hintRelationshipsTitle +++ nl
         +++ join ", " names +++ nl
         +++ join nl hintRest
       /\ (forall concept found,
              In (concept, found) actual <->
              exists candidates,
                In (concept, candidates) elementMappings /\
                found = filter (arrIncludes existing) candidates /\
                exists label, In label candidates /\ In label existing)
       /\ names = firstn 10 (objKeys schema.(relationships))
       /\ List.length names <= 10.
Proof.
  intros existing. split.
  - apply Forall_forall. intros label Hlabel.
    unfold generateSchemaHint.
    apply includes_after, includes_after, includes_before.
    apply (includes_join nl (labelLine schema.(labels) label)).
    + unfold hintLabels. fold existing. now apply in_map.
    + unfold labelLine. apply includes_append.
  - exists (findMappings existing elementMappings []),
           (firstn 10 (objKeys schema.(relationships))).
    split; [reflexivity|]. split; [|split; [reflexivity | apply firstn_le_length]].
    intros concept found.
    rewrite (findMappings_kept existing elementMappings [] elementMappings_keys_distinct)
      by (intros k _ []).
    cbn [app]. unfold keptMappings. rewrite in_map_iff. split.
    + intros ([c candidates] & E & Hin). simpl in E. inversion E; subst.
      apply filter_In in Hin as [Hin Hex]. simpl in Hex.
      apply existsb_exists in Hex as (label & Hl & Hlabel).
      exists candidates. repeat split; auto.
      exists label. split; [exact Hl | now apply arrIncludes_In].
    + intros (candidates & Hin & -> & label & Hl & Hlabel).
      exists (concept, candidates). split; [reflexivity|].
      apply filter_In. split; [exact Hin|]. simpl.
      apply existsb_exists. exists label. split; [exact Hl | now apply arrIncludes_In].
Qed.

Lemma generateSchemaHint_contents_witness :
  includes (generateSchemaHint doorSchema) "IfcDoor" = true
  /\ includes (generateSchemaHint doorSchema) "IfcSlab" = true.
Proof.
  pose (H := proj1 (generateSchemaHint_contents doorSchema)).
  split.
  - exact (proj1 (Forall_forall _ _) H "IfcDoor" (or_introl eq_refl)).
  - exact (proj1 (Forall_forall _ _) H "IfcSlab" (or_intror (or_introl eq_refl))).
Defined.

(* ================================================================= *)
(** ** Effects on the world *)

Lemma withEvents_nil (w : World) : withEvents w [] = w.
Proof.
  destruct w. unfold withEvents. simpl. now rewrite app_nil_r.
Qed.

Lemma withEvents_app (w : World) (a b : list Event) :
  withEvents (withEvents w a) b = withEvents w (a ++ b).
Proof.
  unfold withEvents. simpl. now rewrite app_assoc.
Qed.

Lemma quiet_ret {A : Type} (a : A) : quiet (ret a).
Proof.
  intros w. exists []. simpl. now rewrite withEvents_nil.
Qed.

Lemma quiet_liftO {A : Type} (o : Outcome A) : quiet (liftO o).
Proof.
  intros w. exists []. simpl. now rewrite withEvents_nil.
Qed.

Lemma quiet_bind {A B : Type} (m : Eff A) (k : A -> Eff B) :
  quiet m -> (forall a, quiet (k a)) -> quiet (bind m k).
Proof.
  intros Hm Hk w. unfold bind.
  destruct (Hm w) as [q1 E1]. destruct (m w) as [[a|e] w1]; simpl in E1; subst w1.
  - destruct (Hk a (withEvents w (map SessionRun q1))) as [q2 E2].
    exists (q1 ++ q2). rewrite E2, withEvents_app, map_app. reflexivity.
  - now exists q1.
Qed.

Lemma quiet_tryCatch {A : Type} (m : Eff A) (handler : string -> Eff A) :
  quiet m -> (forall e, quiet (handler e)) -> quiet (tryCatch m handler).
Proof.
  intros Hm Hh w. unfold tryCatch.
  destruct (Hm w) as [q1 E1]. destruct (m w) as [[a|e] w1]; simpl in E1; subst w1.
  - now exists q1.
  - destruct (Hh e (withEvents w (map SessionRun q1))) as [q2 E2].
    exists (q1 ++ q2). rewrite E2, withEvents_app, map_app. reflexivity.
Qed.

Lemma quiet_runTyped {A : Type} (query : string) (answer : Outcome A) :
  quiet (runTyped query answer).
Proof.
  intros w. exists [query]. unfold runTyped, bind, emit, liftO. simpl.
  destruct answer; reflexivity.
Qed.

Lemma quiet_sessionRun (db : QueryDb) (query : string) : quiet (sessionRun db query).
Proof.
  intros w. exists [query]. unfold sessionRun, bind, emit, liftO. simpl.
  destruct (db (runCount (trace w)) query); reflexivity.
Qed.

Create HintDb quiet.
#[local] Hint Resolve quiet_ret quiet_liftO quiet_runTyped quiet_sessionRun : quiet.

Lemma quiet_discoverLabels (db : SchemaDb) (labelRecords : list (string * Z))
    (labelMap : Obj LabelInfo) :
  quiet (discoverLabels db labelRecords labelMap).
Proof.
  revert labelMap.
  induction labelRecords as [|[label n] rest IH]; intros labelMap;
    cbn [discoverLabels]; auto with quiet.
  destruct (0 <? n)%Z; [|apply IH].
  apply quiet_bind; auto with quiet.
  intros propRecords. destruct (readSamples propRecords [] []). apply IH.
Qed.

Lemma quiet_tryRun (db : QueryDb) (query : string) : quiet (tryRun db query).
Proof.
  unfold tryRun. apply quiet_tryCatch; auto with quiet.
  apply quiet_bind; auto with quiet.
Qed.

Lemma quiet_tryFallbacks (db : QueryDb) (fallbacks : list Fallback)
    (cy : string) (res : option QueryResult) (tried : list Attempt) :
  quiet (tryFallbacks db fallbacks cy res tried).
Proof.
  revert tried.
  induction fallbacks as [|fallback rest IH]; intros tried;
    cbn [tryFallbacks]; auto with quiet.
  apply quiet_bind; [apply quiet_tryRun|].
  intros [r|]; auto with quiet.
Qed.

Lemma quiet_resolveFallbacks (db : QueryDb) (question : string) (schema : Schema)
    (cy : string) (res : option QueryResult) (tried : list Attempt) :
  quiet (resolveFallbacks db question schema cy res tried).
Proof.
  unfold resolveFallbacks. apply quiet_bind; [apply quiet_tryFallbacks|].
  intros [[cy' [r|]] tried']; auto with quiet.
  apply quiet_bind; auto with quiet.
Qed.

Lemma quiet_resolve (translator : Translator) (db : QueryDb)
    (question : string) (schema : Schema) :
  quiet (resolve translator db question schema).
Proof.
  unfold resolve. apply quiet_bind; auto with quiet.
  intros content. apply quiet_bind; [apply quiet_tryRun|].
  intros [r|]; [|apply quiet_resolveFallbacks].
  destruct (0 <? List.length (records r))%nat;
    [auto with quiet | apply quiet_resolveFallbacks].
Qed.

Lemma quiet_run {A : Type} (m : Eff A) (w : World) :
  quiet m -> exists r queries, m w = (r, withEvents w (map SessionRun queries)).
Proof.
  intros H. destruct (H w) as [queries E].
  destruct (m w) as [r w']. simpl in E. subst w'. now exists r, queries.
Qed.

Lemma runTyped_eval {A : Type} (query : string) (answer : Outcome A) (w : World) :
  runTyped query answer w = (answer, withEvents w [SessionRun query]).
Proof.
  unfold runTyped, bind, emit, liftO. simpl. reflexivity.
Qed.

(* ================================================================= *)
(** ** discoverSchema *)

Lemma objSet_Forall {V : Type} (P : string * V -> Prop) (o : Obj V) (k : string) (v : V) :
  Forall P o -> P (k, v) -> Forall P (objSet o k v).
Proof.
  intros Ho Hk. induction Ho as [|[k' v'] o Hx Ho IH]; simpl.
  - now repeat constructor.
  - destruct (String.eqb_spec k' k) as [->|_]; constructor; assumption.
Qed.

(** The label loop stores labels with a count above zero only. *)
Lemma discoverLabels_positive (db : SchemaDb) (labelRecords : list (string * Z)) :
  forall labelMap w out w',
    Forall (fun entry => (0 < (snd entry).(count))%Z) labelMap ->
    discoverLabels db labelRecords labelMap w = (Return out, w') ->
    Forall (fun entry => (0 < (snd entry).(count))%Z) out.
Proof.
  induction labelRecords as [|[label n] rest IH]; intros labelMap w out w' Hacc;
    cbn [discoverLabels].
  - intros E. inversion E. now subst.
  - destruct (0 <? n)%Z eqn:Hn; [|now apply IH].
    unfold bind. rewrite runTyped_eval.
    destruct (sampleRows db label) as [propRecords|e]; [|discriminate].
    destruct (readSamples propRecords [] []) as [propertySet sampleList].
    apply IH. apply objSet_Forall; [exact Hacc|]. simpl. now apply Z.ltb_lt.
Qed.

(** What the [try] block of discoverSchema does: it runs the labels
    query first and then either returns a new object, stored in the
    cache, whose labels all have a count above zero, or throws and
    leaves the cache as it was. *)
Lemma discover_cases (db : SchemaDb) (now : Z) (w : World) :
  exists rest,
    let queries := labelsQuery :: rest in
    (exists obj,
        discover db now w
        = (Return obj,
           {| schemaCache := Some obj;
              schemaCacheTime := now;
              nextAddress := S w.(nextAddress);
              trace := w.(trace) ++ map SessionRun queries |})
        /\ obj.(address) = w.(nextAddress)
        /\ labelsPositive obj.(snapshot))
    \/ (exists e,
          discover db now w = (Throw e, withEvents w (map SessionRun queries))).
Proof.
  unfold discover, bind. rewrite runTyped_eval.
  destruct (labelCounts db) as [labelRecords|e];
    [|exists []; right; exists e; reflexivity].
  destruct (quiet_run (discoverLabels db labelRecords [])
              (withEvents w [SessionRun labelsQuery])
              (quiet_discoverLabels db labelRecords []))
    as (r & q2 & E2).
  rewrite E2. rewrite withEvents_app.
  destruct r as [labelMap|e];
    [|exists q2; right; exists e; reflexivity].
  rewrite runTyped_eval, withEvents_app.
  destruct (relationshipCounts db) as [relRecords|e].
  - exists (q2 ++ [relationshipsQuery]). left. eexists. split; [|split].
    + unfold allocate, storeCache, ret, withEvents. simpl.
      rewrite map_app. reflexivity.
    + reflexivity.
    + unfold labelsPositive. simpl.
      eapply discoverLabels_positive; [apply Forall_nil | exact E2].
  - exists (q2 ++ [relationshipsQuery]). right. exists e.
    simpl. rewrite map_app. reflexivity.
Qed.

Lemma discoverSchema_stale (db : SchemaDb) (now : Z) (w : World) :
  cacheFresh now w = false ->
  discoverSchema db now w
  = (sessionOpen ;;;
     tryFinally (tryCatch (discover db now) (fun _ => allocate fallbackSchema))
       sessionClose) w.
Proof.
  unfold cacheFresh, discoverSchema. intros H.
  destruct (schemaCache w); [rewrite H|]; reflexivity.
Qed.

(** What discoverSchema returns and does to the world on each path. *)
Lemma discoverSchema_paths (db : SchemaDb) (now : Z) (w : World) :
  match exitPath db now w with
  | CacheHit =>
      exists cached,
        w.(schemaCache) = Some cached /\
        discoverSchema db now w = (Return cached, w)
  | Discovered =>
      exists rest obj,
        discoverSchema db now w
        = (Return obj,
           {| schemaCache := Some obj;
              schemaCacheTime := now;
              nextAddress := S w.(nextAddress);
              trace := w.(trace) ++ sessionEvents (labelsQuery :: rest) |})
        /\ obj.(address) = w.(nextAddress)
        /\ labelsPositive obj.(snapshot)
  | DiscoveryFailed =>
      exists rest,
        discoverSchema db now w
        = (Return {| address := w.(nextAddress); snapshot := fallbackSchema |},
           {| schemaCache := w.(schemaCache);
              schemaCacheTime := w.(schemaCacheTime);
              nextAddress := S w.(nextAddress);
              trace := w.(trace) ++ sessionEvents (labelsQuery :: rest) |})
  end.
Proof.
  unfold exitPath. destruct (cacheFresh now w) eqn:Hfresh.
  - unfold cacheFresh in Hfresh. unfold discoverSchema.
    destruct (schemaCache w) as [cached|]; [|discriminate].
    exists cached. now rewrite Hfresh.
  - rewrite (discoverSchema_stale db now w Hfresh).
    destruct (discover_cases db now (withEvents w [SessionOpen]))
      as [rest [(obj & E & Haddr & Hpos)|(e & E)]]; rewrite E; cbn [fst].
    + exists rest, obj. split; [|split; assumption].
      unfold bind, sessionOpen, sessionClose, tryFinally, tryCatch, emit.
      fold (withEvents w [SessionOpen]). rewrite E.
      unfold sessionEvents. simpl. rewrite <- !app_assoc. reflexivity.
    + exists rest.
      unfold bind, sessionOpen, sessionClose, tryFinally, tryCatch, emit.
      fold (withEvents w [SessionOpen]). rewrite E.
      unfold sessionEvents, allocate. simpl. rewrite <- !app_assoc. reflexivity.
Qed.

(** processQuery changes nothing but the trace, to which it adds one
    session. *)
Lemma processQuery_world (translator : Translator) (db : QueryDb)
    (question : string) (schema : Schema) (w : World) :
  exists queries,
    snd (processQuery translator db question schema w)
    = withEvents w (sessionEvents queries).
Proof.
  unfold processQuery, bind, sessionOpen, sessionClose, tryFinally, emit.
  fold (withEvents w [SessionOpen]).
  destruct (quiet_run (resolve translator db question schema)
              (withEvents w [SessionOpen]) (quiet_resolve _ _ _ _))
    as (r & queries & E).
  rewrite E. exists queries. simpl.
  unfold withEvents, sessionEvents. simpl. rewrite <- !app_assoc. reflexivity.
Qed.

Lemma reachable_cacheSound (w : World) : reachable w -> cacheSound w.
Proof.
  induction 1 as [|db now w _ IH|translator db question schema w _ IH].
  - intros cached H. discriminate H.
  - pose proof (discoverSchema_paths db now w) as P.
    destruct (exitPath db now w).
    + destruct P as (cached & _ & ->). exact IH.
    + destruct P as (rest & obj & -> & Haddr & Hpos).
      intros cached H. simpl in H. inversion H; subst cached.
      split; [exact Hpos|]. simpl. rewrite Haddr. apply Nat.lt_succ_diag_r.
    + destruct P as (rest & ->).
      intros cached H. simpl in H. destruct (IH cached H) as [Hpos Hlt].
      split; [exact Hpos|]. simpl. now apply Nat.lt_lt_succ_r.
  - destruct (processQuery_world translator db question schema w) as [queries ->].
    exact IH.
Qed.

(** C3, as stated, fails.  When the labels query throws, discoverSchema
    returns the fallback snapshot, and its label IfcWall has count 0. *)
Lemma discoverSchema_fallback_count_zero :
  exists obj w info,
    discoverSchema brokenDb 0 initialWorld = (Return obj, w) /\
    objGet obj.(snapshot).(labels) "IfcWall" = Some info /\
    ~ (0 < info.(count))%Z.
Proof.
  do 3 eexists. split; [reflexivity|]. split; [reflexivity|].
  simpl. lia.
Qed.

(** C3, amended.  discoverSchema always returns a snapshot.  The one
    it returns from the cache or from a discovery that succeeded has a
    count above zero for every label; after a discovery that failed it
    returns the hardcoded fallback snapshot. *)
Theorem discoverSchema_labels_positive (db : SchemaDb) (now : Z) (w : World) :
  reachable w ->
  exists obj w',
    discoverSchema db now w = (Return obj, w') /\
    match exitPath db now w with
    | DiscoveryFailed => obj.(snapshot) = fallbackSchema
    | _ => labelsPositive obj.(snapshot)
    end.
Proof.
  intros Hw. apply reachable_cacheSound in Hw.
  pose proof (discoverSchema_paths db now w) as P.
  destruct (exitPath db now w).
  - destruct P as (cached & Hc & E). exists cached, w.
    split; [exact E | apply (Hw cached Hc)].
  - destruct P as (rest & obj & E & _ & Hpos). eauto.
  - destruct P as (rest & E). eauto.
Qed.

Lemma discoverSchema_labels_positive_witness :
  exists obj w',
    discoverSchema doorDb 1000 initialWorld = (Return obj, w') /\
    labelsPositive obj.(snapshot).
Proof.
  exact (discoverSchema_labels_positive doorDb 1000 initialWorld reachable_initial).
Defined.

(** A cache that is stale stays stale as time goes on. *)
Lemma cacheFresh_later (now now' : Z) (w w' : World) :
  cacheFresh now w = false ->
  (now <= now')%Z ->
  w'.(schemaCache) = w.(schemaCache) ->
  w'.(schemaCacheTime) = w.(schemaCacheTime) ->
  cacheFresh now' w' = false.
Proof.
  unfold cacheFresh. intros H Hle -> ->.
  destruct (schemaCache w); [|reflexivity].
  apply Z.ltb_ge in H. apply Z.ltb_ge. lia.
Qed.

(** A call that does not find a fresh cache opens a session and runs
    the labels query first. *)
Lemma discoverSchema_stale_trace (db : SchemaDb) (now : Z) (w : World) :
  cacheFresh now w = false ->
  exists rest,
    trace (snd (discoverSchema db now w))
    = trace w ++ sessionEvents (labelsQuery :: rest).
Proof.
  intros H. pose proof (discoverSchema_paths db now w) as P.
  unfold exitPath in P. rewrite H in P.
  destruct (fst (discover db now (withEvents w [SessionOpen]))).
  - destruct P as (rest & obj & -> & _). now exists rest.
  - destruct P as (rest & ->). now exists rest.
Qed.

(** C5.  A snapshot in the cache for less than CACHE_DURATION
    (300000 ms) is returned as it is, the same object, and the world is
    left as it was: no session, no query.  So a call within that time
    of a successful discovery returns the object that discovery
    returned.  When discovery fails, the fallback snapshot is returned
    as a new object, the cache variables keep their values, and the
    next call, at the same time or later, opens a session and runs the
    labels query again. *)
Theorem discoverSchema_cache :
  (forall db now w cached,
      w.(schemaCache) = Some cached ->
      (now - w.(schemaCacheTime) < CACHE_DURATION)%Z ->
      discoverSchema db now w = (Return cached, w))
  /\ (forall db1 db2 t1 t2 w,
        exitPath db1 t1 w = Discovered ->
        (t2 - t1 < CACHE_DURATION)%Z ->
        exists obj w1,
          discoverSchema db1 t1 w = (Return obj, w1) /\
          w1.(schemaCache) = Some obj /\
          discoverSchema db2 t2 w1 = (Return obj, w1))
  /\ (forall db now w,
        exitPath db now w = DiscoveryFailed ->
        exists obj w1,
          discoverSchema db now w = (Return obj, w1) /\
          obj.(snapshot) = fallbackSchema /\
          w1.(schemaCache) = w.(schemaCache) /\
          w1.(schemaCacheTime) = w.(schemaCacheTime) /\
          (reachable w -> w1.(schemaCache) <> Some obj) /\
          forall db' now',
            (now <= now')%Z ->
            exists rest,
              trace (snd (discoverSchema db' now' w1))
              = trace w1 ++ sessionEvents (labelsQuery :: rest)).
Proof.
  assert (Hhit : forall db now w cached,
             w.(schemaCache) = Some cached ->
             (now - w.(schemaCacheTime) < CACHE_DURATION)%Z ->
             discoverSchema db now w = (Return cached, w)).
  { intros db now w cached Hc Hlt. unfold discoverSchema. rewrite Hc.
    apply Z.ltb_lt in Hlt. now rewrite Hlt. }
  split; [exact Hhit|]. split.
  - intros db1 db2 t1 t2 w Hpath Hlt.
    pose proof (discoverSchema_paths db1 t1 w) as P. rewrite Hpath in P.
    destruct P as (rest & obj & E & _). rewrite E.
    eexists. eexists. split; [reflexivity|]. split; [reflexivity|].
    apply Hhit; [reflexivity | exact Hlt].
  - intros db now w Hpath.
    pose proof (discoverSchema_paths db now w) as P. rewrite Hpath in P.
    destruct P as (rest & E). rewrite E.
    eexists. eexists. split; [reflexivity|]. cbn [snapshot schemaCache schemaCacheTime].
    repeat split.
    + intros Hw Hc. apply reachable_cacheSound in Hw.
      destruct (Hw _ Hc) as [_ Hlt]. simpl in Hlt. lia.
    + intros db' now' Hle. apply discoverSchema_stale_trace.
      apply (cacheFresh_later now now' w); auto.
      unfold exitPath in Hpath. destruct (cacheFresh now w); [discriminate | reflexivity].
Qed.

Lemma discoverSchema_cache_witness :
  (exists obj w1,
      discoverSchema doorDb 1000 initialWorld = (Return obj, w1) /\
      w1.(schemaCache) = Some obj /\
      discoverSchema brokenDb 300999 w1 = (Return obj, w1))
  /\ (exists obj w1,
        discoverSchema brokenDb 1000 initialWorld = (Return obj, w1) /\
        obj.(snapshot) = fallbackSchema /\
        w1.(schemaCache) = None /\
        exists rest,
          trace (snd (discoverSchema doorDb 1000 w1))
          = trace w1 ++ sessionEvents (labelsQuery :: rest)).
Proof.
  split.
  - apply (proj1 (proj2 discoverSchema_cache) doorDb brokenDb 1000%Z 300999%Z initialWorld).
    + reflexivity.
    + reflexivity.
  - destruct (proj2 (proj2 discoverSchema_cache) brokenDb 1000%Z initialWorld eq_refl)
      as (obj & w1 & E & Hs & Hc & _ & _ & Hnext).
    exists obj, w1. repeat split; try assumption.
    apply Hnext. apply Z.le_refl.
Defined.

(* ================================================================= *)
(** ** Sessions *)

Lemma sessionEvents_balanced (queries : list string) :
  opened (sessionEvents queries) = 1
  /\ closed (sessionEvents queries) = 1
  /\ last (sessionEvents queries) SessionOpen = SessionClose.
Proof.
  unfold sessionEvents, opened, closed. cbn [filter List.length].
  rewrite !filter_app, !length_app. cbn [filter List.length].
  assert (H : forall l,
             filter (fun ev => match ev with SessionOpen => true | _ => false end)
               (map SessionRun l) = []
             /\ filter (fun ev => match ev with SessionClose => true | _ => false end)
                  (map SessionRun l) = []).
  { induction l as [|q l [IH1 IH2]]; simpl; auto. }
  destruct (H queries) as [-> ->]. repeat split.
  change (SessionOpen :: map SessionRun queries ++ [SessionClose])
    with ((SessionOpen :: map SessionRun queries) ++ [SessionClose]).
  apply last_last.
Qed.

(** C8, as stated, fails.  The second of two calls of discoverSchema
    within the cache time acquires no session: it adds nothing to the
    trace, which still has the one session of the first call. *)
Lemma discoverSchema_cache_hit_opens_no_session :
  let w1 := snd (discoverSchema doorDb 1000 initialWorld) in
  let w2 := snd (discoverSchema doorDb 2000 w1) in
  exitPath doorDb 2000 w1 = CacheHit
  /\ trace w2 = trace w1
  /\ opened (trace w1) = 1
  /\ opened (trace w2) = 1.
Proof.
  repeat split.
Qed.

(** C8, amended.  discoverSchema acquires no session when it returns
    the cached snapshot and exactly one otherwise; processQuery acquires
    exactly one.  A session that was acquired is closed as the last
    event of the call, whether the call returns or throws, and only
    queries are run in between. *)
Theorem sessions_released :
  (forall db now w,
      exists added,
        trace (snd (discoverSchema db now w)) = trace w ++ added /\
        match exitPath db now w with
        | CacheHit => added = []
        | _ => exists queries, added = sessionEvents queries
        end)
  /\ (forall translator db question schema w,
        exists queries,
          trace (snd (processQuery translator db question schema w))
          = trace w ++ sessionEvents queries)
  /\ (forall queries,
        opened (sessionEvents queries) = 1
        /\ closed (sessionEvents queries) = 1
        /\ last (sessionEvents queries) SessionOpen = SessionClose).
Proof.
  split; [|split; [|exact sessionEvents_balanced]].
  - intros db now w. pose proof (discoverSchema_paths db now w) as P.
    destruct (exitPath db now w).
    + destruct P as (cached & _ & ->). exists []. simpl.
      now rewrite app_nil_r.
    + destruct P as (rest & obj & -> & _). eexists. split; [reflexivity | eauto].
    + destruct P as (rest & ->). eexists. split; [reflexivity | eauto].
  - intros translator db question schema w.
    destruct (processQuery_world translator db question schema w) as [queries ->].
    now exists queries.
Qed.

Lemma sessions_released_witness :
  (exists added,
      trace (snd (discoverSchema brokenDb 1000 initialWorld)) = [] ++ added
      /\ exists queries, added = sessionEvents queries)
  /\ processQuery (fun _ => Throw "Request timed out") roofDb roofQuestion doorSchema
       initialWorld
     = (Throw "Request timed out", withEvents initialWorld (sessionEvents [])).
Proof.
  split.
  - exact (proj1 sessions_released brokenDb 1000%Z initialWorld).
  - reflexivity.
Defined.

(* ================================================================= *)
(** ** processQuery *)

(** C1: the code at the failing input.  The question has no fallback
    candidate and the generated query returns zero rows; processQuery
    returns that empty result and the generated query, and the ultimate
    fallback is not run: the session runs the generated query only. *)
Theorem processQuery_skips_ultimate_fallback :
  generateFallbackQueries roofQuestion doorSchema = []
  /\ processQuery roofTranslator roofDb roofQuestion doorSchema initialWorld
     = (Return {| answerCypher := "MATCH (n:IfcRoof) RETURN n";
                  result := {| records := [] |};
                  attempts := [ {| attemptCypher := "MATCH (n:IfcRoof) RETURN n";
                                   source := "AI" |} ] |},
        withEvents initialWorld (sessionEvents ["MATCH (n:IfcRoof) RETURN n"]))
  /\ ~ In (SessionRun ultimateFallback)
         (trace (snd (processQuery roofTranslator roofDb roofQuestion doorSchema
                        initialWorld))).
Proof.
  split; [reflexivity|]. split; [reflexivity|].
  intros H. vm_compute in H. intuition discriminate.
Qed.

(** The sibling path: when the generated query throws instead, the same
    question does reach the ultimate fallback. *)
Lemma processQuery_ultimate_fallback_after_error :
  let db : QueryDb :=
    fun _ query => if String.eqb query ultimateFallback
                   then roofDb 0 query else Throw "Invalid input" in
  processQuery roofTranslator db roofQuestion doorSchema initialWorld
  = (Return {| answerCypher := ultimateFallback;
               result := {| records := [[("total_count", VScalar (SInt 16))]] |};
               attempts := [ {| attemptCypher := "MATCH (n:IfcRoof) RETURN n";
                                source := "AI" |};
                             {| attemptCypher := ultimateFallback;
                                source := "ultimate_fallback" |} ] |},
     withEvents initialWorld
       (sessionEvents ["MATCH (n:IfcRoof) RETURN n"; ultimateFallback])).
Proof.
  reflexivity.
Qed.

(** C2: the code at the failing input.  The generated query succeeds
    with zero rows and the question has no fallback candidate; the
    result of the generated query, with its zero rows, is what
    processQuery returns as the final result. *)
Theorem processQuery_returns_empty_generated_result :
  exists answer w,
    processQuery limitZeroTranslator roofDb "hello" doorSchema initialWorld
    = (Return answer, w)
    /\ answer.(answerCypher) = "MATCH (n) RETURN n LIMIT 0"
    /\ answer.(result) = {| records := [] |}
    /\ map source answer.(attempts) = ["AI"]
    /\ trace w = sessionEvents ["MATCH (n) RETURN n LIMIT 0"].
Proof.
  do 2 eexists. repeat split.
Qed.

(** The parts of C2 that hold on every input. *)

Lemma runCount_open (t : list Event) : runCount (t ++ [SessionOpen]) = runCount t.
Proof.
  unfold runCount. rewrite filter_app, length_app. simpl. apply Nat.add_0_r.
Qed.

(** A generated query that returns at least one row is the answer, and
    nothing else is run. *)
Lemma processQuery_generated_accepted (translator : Translator) (db : QueryDb)
    (question : string) (schema : Schema) (w : World)
    (content : option string) (r : QueryResult) :
  translator (buildPrompt question schema) = Return content ->
  db (runCount w.(trace)) (cleanCypher content) = Return r ->
  r.(records) <> [] ->
  processQuery translator db question schema w
  = (Return {| answerCypher := cleanCypher content;
               result := r;
               attempts := [ {| attemptCypher := cleanCypher content; source := "AI" |} ] |},
     withEvents w (sessionEvents [cleanCypher content])).
Proof.
  intros Ht Hdb Hrows.
  unfold processQuery, bind, sessionOpen, sessionClose, tryFinally, emit.
  fold (withEvents w [SessionOpen]).
  unfold resolve, bind, liftO. rewrite Ht.
  unfold tryRun, tryCatch, bind, sessionRun, bind, emit, liftO, ret.
  cbn [trace withEvents]. rewrite runCount_open, Hdb.
  destruct (records r) as [|row rows] eqn:Er; [now elim Hrows|].
  cbn [List.length Nat.ltb Nat.leb]. unfold withEvents, sessionEvents. simpl.
  rewrite <- !app_assoc. reflexivity.
Qed.

(** In the loop over the fallbacks, a candidate whose query succeeds is
    accepted, whatever the number of its rows, and ends the loop. *)
Lemma tryFallbacks_accepts_success (db : QueryDb) (fallback : Fallback)
    (rest : list Fallback) (cy : string) (res : option QueryResult)
    (tried : list Attempt) (w : World) (r : QueryResult) :
  db (runCount w.(trace)) fallback.(cypher) = Return r ->
  tryFallbacks db (fallback :: rest) cy res tried w
  = (Return (fallback.(cypher), Some r,
             tried ++ [ {| attemptCypher := fallback.(cypher);
                           source := fallback.(strategy) |} ]),
     withEvents w [SessionRun fallback.(cypher)]).
Proof.
  intros Hdb. cbn [tryFallbacks].
  unfold bind, tryRun, tryCatch, bind, sessionRun, bind, emit, liftO, ret.
  now rewrite Hdb.
Qed.

(** A candidate whose query throws is passed over; [cypher] and
    [result] stay as they were. *)
Lemma tryFallbacks_skips_failure (db : QueryDb) (fallback : Fallback)
    (rest : list Fallback) (cy : string) (res : option QueryResult)
    (tried : list Attempt) (w : World) (e : string) :
  db (runCount w.(trace)) fallback.(cypher) = Throw e ->
  tryFallbacks db (fallback :: rest) cy res tried w
  = tryFallbacks db rest cy res
      (tried ++ [ {| attemptCypher := fallback.(cypher);
                     source := fallback.(strategy) |} ])
      (withEvents w [SessionRun fallback.(cypher)]).
Proof.
  intros Hdb. cbn [tryFallbacks].
  unfold bind, tryRun, tryCatch, bind, sessionRun, bind, emit, liftO, ret.
  now rewrite Hdb.
Qed.

(** An empty answer of a fallback is final: the generated query throws,
    the first fallback returns zero rows, and that is the answer. *)
Lemma processQuery_accepts_empty_fallback :
  let db : QueryDb :=
    fun _ query => if String.eqb query "MATCH (n:IfcRoof) RETURN n"
                   then Throw "Invalid input" else roofDb 0 query in
  exists answer w,
    processQuery roofTranslator db "list all doors with names" doorSchema initialWorld
    = (Return answer, w)
    /\ map source answer.(attempts) = ["AI"; "list_door"]
    /\ answer.(result) = {| records := [] |}.
Proof.
  do 2 eexists. repeat split.
Qed.

(** The defect behind C1 and C2, on every input. *)

Lemma runCount_run (w : World) (query : string) :
  runCount (trace (withEvents w [SessionRun query])) = S (runCount w.(trace)).
Proof.
  unfold runCount. simpl. rewrite filter_app, length_app. simpl. lia.
Qed.

(** When every candidate throws, the loop leaves [cypher] and [result]
    as they were. *)
Lemma tryFallbacks_all_fail (db : QueryDb) (fallbacks : list Fallback) :
  forall (cy : string) (res : option QueryResult) (tried : list Attempt) (w : World),
    (forall i f, nth_error fallbacks i = Some f ->
                 exists e, db (runCount w.(trace) + i) f.(cypher) = Throw e) ->
    tryFallbacks db fallbacks cy res tried w
    = (Return (cy, res,
               tried ++ map (fun f => {| attemptCypher := f.(cypher);
                                         source := f.(strategy) |}) fallbacks),
       withEvents w (map SessionRun (map cypher fallbacks))).
Proof.
  induction fallbacks as [|fallback rest IH]; intros cy res tried w Hfail.
  - simpl. unfold ret. now rewrite app_nil_r, withEvents_nil.
  - destruct (Hfail 0 fallback eq_refl) as [e He]. rewrite Nat.add_0_r in He.
    rewrite (tryFallbacks_skips_failure db fallback rest cy res tried w e He).
    rewrite IH.
    + rewrite withEvents_app, <- app_assoc. reflexivity.
    + intros i f Hi. rewrite runCount_run.
      destruct (Hfail (S i) f Hi) as [e' He']. exists e'.
      now rewrite Nat.add_succ_r in He'.
Qed.

(** A generated query that succeeds with zero rows, followed by
    fallbacks that all throw (or by none): processQuery returns the
    generated query and its empty result, and the session ends without
    the ultimate fallback. *)
Lemma processQuery_keeps_empty_generated_result (translator : Translator)
    (db : QueryDb) (question : string) (schema : Schema) (w : World)
    (content : option string) (r : QueryResult) :
  let fallbacks := generateFallbackQueries question schema in
  translator (buildPrompt question schema) = Return content ->
  db (runCount w.(trace)) (cleanCypher content) = Return r ->
  r.(records) = [] ->
  (forall i f, nth_error fallbacks i = Some f ->
               exists e, db (S (runCount w.(trace)) + i) f.(cypher) = Throw e) ->
  exists tried,
    processQuery translator db question schema w
    = (Return {| answerCypher := cleanCypher content; result := r; attempts := tried |},
       withEvents w (sessionEvents (cleanCypher content :: map cypher fallbacks))).
Proof.
  intros fallbacks Ht Hdb Hrows Hfail.
  unfold processQuery, bind, sessionOpen, sessionClose, tryFinally, emit.
  fold (withEvents w [SessionOpen]).
  unfold resolve, bind, liftO at 1. rewrite Ht.
  unfold tryRun, tryCatch, bind, sessionRun, bind, emit, liftO, ret.
  cbn [trace withEvents]. rewrite runCount_open, Hdb, Hrows.
  cbn [List.length Nat.ltb Nat.leb].
  unfold resolveFallbacks, bind. fold fallbacks.
  match goal with
  | |- context [tryFallbacks db fallbacks ?cy ?res ?tried ?w0] =>
      rewrite (tryFallbacks_all_fail db fallbacks cy res tried w0)
  end.
  - eexists. unfold ret, withEvents, sessionEvents. simpl.
    rewrite <- !app_assoc. reflexivity.
  - intros i f Hi. simpl trace.
    rewrite <- app_assoc. simpl.
    unfold runCount at 1. rewrite filter_app, length_app. simpl.
    fold (runCount (trace w)).
    replace (runCount (trace w) + 1 + i) with (S (runCount (trace w)) + i) by lia.
    now apply Hfail.
Qed.

(** The same with a generated query that throws: the ultimate fallback
    is run, as the last query of the session. *)
Lemma processQuery_reaches_ultimate_fallback (translator : Translator)
    (db : QueryDb) (question : string) (schema : Schema) (w : World)
    (content : option string) (e0 : string) :
  let fallbacks := generateFallbackQueries question schema in
  translator (buildPrompt question schema) = Return content ->
  db (runCount w.(trace)) (cleanCypher content) = Throw e0 ->
  (forall i f, nth_error fallbacks i = Some f ->
               exists e, db (S (runCount w.(trace)) + i) f.(cypher) = Throw e) ->
  trace (snd (processQuery translator db question schema w))
  = trace w ++ sessionEvents (cleanCypher content :: map cypher fallbacks
                              ++ [ultimateFallback]).
Proof.
  intros fallbacks Ht Hdb Hfail.
  unfold processQuery, bind, sessionOpen, sessionClose, tryFinally, emit.
  fold (withEvents w [SessionOpen]).
  unfold resolve, bind, liftO at 1. rewrite Ht.
  unfold tryRun, tryCatch, bind, sessionRun at 1, bind, emit, liftO, ret.
  cbn [trace withEvents]. rewrite runCount_open, Hdb.
  unfold resolveFallbacks, bind. fold fallbacks.
  match goal with
  | |- context [tryFallbacks db fallbacks ?cy ?res ?tried ?w0] =>
      rewrite (tryFallbacks_all_fail db fallbacks cy res tried w0)
  end.
  - unfold sessionRun, bind, emit, liftO.
    match goal with
    | |- context [db ?n ultimateFallback] => destruct (db n ultimateFallback)
    end; unfold ret, withEvents, sessionEvents; simpl;
      rewrite !map_app, <- !app_assoc; simpl; rewrite <- ?app_assoc; reflexivity.
  - intros i f Hi. simpl trace.
    rewrite <- app_assoc. simpl.
    unfold runCount at 1. rewrite filter_app, length_app. simpl.
    fold (runCount (trace w)).
    replace (runCount (trace w) + 1 + i) with (S (runCount (trace w)) + i) by lia.
    now apply Hfail.
Qed.

(* ================================================================= *)
(** * Further properties *)

(** ** formatResult: the list format, the generic format, exceptions *)

Lemma mapO_total {A B : Type} (f : A -> Outcome B) (l : list A) :
  Forall (fun x => exists y, f x = Return y) l ->
  exists ys, mapO f l = Return ys.
Proof.
  induction 1 as [|x l [y Hy] _ [ys Hys]]; simpl.
  - now exists [].
  - rewrite Hy, Hys. simpl. now exists (y :: ys).
Qed.

Lemma mapO_throws {A B : Type} (f : A -> Outcome B) (l : list A) :
  Exists (fun x => exists e, f x = Throw e) l ->
  exists e, mapO f l = Throw e.
Proof.
  induction 1 as [x l [e He]|x l _ [e He]]; simpl.
  - rewrite He. simpl. now exists e.
  - destruct (f x) as [y|e']; simpl; [|now exists e'].
    rewrite He. simpl. now exists e.
Qed.

Lemma mapO_throws_inv {A B : Type} (f : A -> Outcome B) (l : list A) (e : string) :
  mapO f l = Throw e -> Exists (fun x => exists e', f x = Throw e') l.
Proof.
  induction l as [|x l IH]; simpl; [discriminate|].
  destruct (f x) as [y|e'] eqn:E; simpl.
  - destruct (mapO f l) as [ys|e'']; simpl; [discriminate|].
    intros H. apply Exists_cons_tl. apply IH. exact H.
  - intros _. apply Exists_cons_hd. now exists e'.
Qed.

(** Reading an entry throws when one of the three columns is missing. *)
Lemma formatItem_missing (r : Row) :
  ~ hasItemColumns r -> exists e, formatItem r = Throw e.
Proof.
  intros H. unfold formatItem.
  destruct (in_dec string_dec "name" (keys r)) as [Hn|Hn];
    [|destruct (get_missing r "name" Hn) as [e ->]; now exists e].
  destruct (get_column r "name" Hn) as [n ->]. cbn [bindO].
  destruct (in_dec string_dec "globalId" (keys r)) as [Hg|Hg];
    [|destruct (get_missing r "globalId" Hg) as [e ->]; now exists e].
  destruct (get_column r "globalId" Hg) as [g ->]. cbn [bindO].
  destruct (in_dec string_dec "nid" (keys r)) as [Hi|Hi];
    [|destruct (get_missing r "nid" Hi) as [e ->]; now exists e].
  elim H. repeat split; assumption.
Qed.

Lemma formatItem_throws_inv (r : Row) (e : string) :
  formatItem r = Throw e -> ~ hasItemColumns r.
Proof.
  intros E H. destruct (formatItem_bullet r H) as [rest E']. congruence.
Qed.

(** The generic format reads the columns a record has, so it returns. *)
Lemma tabularFill_total (record : Row) (ks : list string) :
  incl ks (keys record) ->
  forall obj, exists obj', tabularFill record ks obj = Return obj'.
Proof.
  induction ks as [|key ks IH]; intros Hks obj; simpl.
  - now exists obj.
  - destruct (get_column record key (Hks key (or_introl eq_refl))) as [v ->].
    simpl. apply IH. intros k Hk. apply Hks. now right.
Qed.

Lemma tabularRow_total (record : Row) : exists j, tabularRow record = Return j.
Proof.
  unfold tabularRow.
  destruct (tabularFill_total record (keys record) (incl_refl _) []) as [obj ->].
  simpl. now exists (JObj obj).
Qed.


(** The test of server.js 354 is false for a result that is not one
    row of one column. *)
Lemma not_single_scalar (first : Row) (rest : list Row) :
  ~ (List.length (first :: rest) = 1 /\ List.length (keys first) = 1) ->
  (List.length (first :: rest) =? 1)%nat && (List.length (keys first) =? 1)%nat = false.
Proof.
  intros H.
  destruct (List.length (first :: rest) =? 1)%nat eqn:E1; [|reflexivity].
  destruct (List.length (keys first) =? 1)%nat eqn:E2; [|reflexivity].
  apply Nat.eqb_eq in E1, E2. elim H. now split.
Qed.

(** X1.  The list format for any number of rows.  When the first ten
    rows (or all, if fewer) have the columns [name], [globalId] and
    [nid], the text is the line "Found n result(s):", one bulleted entry
    for each of the first ten rows, and, only for more than ten rows,
    the line "... and (n - 10) more".  The rows after the tenth are
    counted and never read. *)
Theorem formatResult_list (rows : list Row) (question : string) :
  rows <> [] ->
  Forall hasItemColumns (firstn 10 rows) ->
  exists items,
    mapO formatItem (firstn 10 rows) = Return items /\
    List.length items = Nat.min 10 (List.length rows) /\
    Forall (fun item => startsWith item "• " = true) items /\
    formatResult {| records := rows |} question
    = Return ("Found " +++ natToString (List.length rows) +++ " result(s):" +++ nl
              +++ join nl items
              +++ (if (10 <? List.length rows)%nat
                   then nl +++ "... and " +++ natToString (List.length rows - 10)
                        +++ " more"
                   else "")).
Proof.
  intros Hne Hcols.
  destruct (formatItems_bullets _ Hcols) as (items & E & Hbullets).
  exists items. split; [exact E|].
  split; [rewrite (mapO_length _ _ _ E); apply length_firstn|].
  split; [exact Hbullets|].
  destruct rows as [|first rest]; [now elim Hne|].
  assert (Hfirst : hasItemColumns first) by (now inversion Hcols).
  destruct Hfirst as (Hn & _ & Hi).
  unfold formatResult. cbn [records].
  rewrite not_single_scalar.
  - rewrite (proj2 (arrIncludes_In _ _) Hn). cbn [orb]. unfold maxRows.
    rewrite E. cbn [bindO].
    destruct (10 <? List.length (first :: rest))%nat.
    + rewrite !append_assoc. reflexivity.
    + rewrite append_nil_r. reflexivity.
  - intros [_ Hone]. revert Hn Hi Hone. unfold keys.
    destruct (map fst first) as [|a [|b l]]; intros Hn Hi Hone;
      try discriminate Hone.
    destruct Hn as [Hn|[]]. destruct Hi as [Hi|[]]. congruence.
Qed.

Lemma formatResult_list_witness :
  exists items,
    mapO formatItem (firstn 10 (firstn 2 fifteenNamedRows)) = Return items /\
    List.length items = 2 /\
    formatResult {| records := firstn 2 fifteenNamedRows |} "list all doors"
    = Return ("Found 2 result(s):" +++ nl +++ join nl items).
Proof.
  destruct (formatResult_list (firstn 2 fifteenNamedRows) "list all doors")
    as (items & E & Hlen & _ & Hout).
  - discriminate.
  - repeat (apply Forall_cons; [repeat split; simpl; auto 6|]). apply Forall_nil.
  - exists items. split; [exact E|]. split; [exact Hlen|].
    rewrite Hout. simpl. now rewrite append_nil_r.
Defined.

(** X2.  formatResult throws exactly when the result takes the list
    format and one of its first ten rows lacks the column [name],
    [globalId] or [nid]; in every other case it returns a text. *)
Theorem formatResult_throws_iff (rows : list Row) (question : string) :
  (exists e, formatResult {| records := rows |} question = Throw e)
  <-> listFormat rows /\ Exists (fun r => ~ hasItemColumns r) (firstn 10 rows).
Proof.
  unfold formatResult. cbn [records]. split.
  - intros [e H].
    destruct rows as [|first rest]; [discriminate H|].
    destruct ((List.length (first :: rest) =? 1)%nat
              && (List.length (keys first) =? 1)%nat) eqn:Hone.
    + apply andb_prop in Hone as [_ Hk]. apply Nat.eqb_eq in Hk.
      unfold keys in Hk. destruct first as [|[k v] [|kv l]]; try discriminate Hk.
      simpl in H. destruct (includes (toLowerCase k) "count"); discriminate H.
    + destruct (arrIncludes (keys first) "name" || arrIncludes (keys first) "globalId")
        eqn:Hlist.
      * unfold maxRows in H.
        destruct (mapO formatItem (firstn 10 (first :: rest))) as [items|e'] eqn:E;
          [simpl in H; destruct (10 <? _)%nat; discriminate H|].
        split.
        -- exists first, rest. split; [reflexivity|]. split.
           ++ intros [H1 H2]. rewrite H1, H2 in Hone. discriminate Hone.
           ++ apply orb_prop in Hlist as [Hl|Hl]; apply arrIncludes_In in Hl; auto.
        -- apply mapO_throws_inv in E.
           apply Exists_exists in E as (r & Hr & e'' & He).
           apply Exists_exists. exists r. split; [exact Hr|].
           now apply formatItem_throws_inv in He.
      * destruct (mapO_total tabularRow (firstn maxRows (first :: rest))) as [js Hjs].
        { apply Forall_forall. intros r _. apply tabularRow_total. }
        rewrite Hjs in H. discriminate H.
  - intros [(first & rest & -> & Hnot & Hcol) Hex].
    rewrite (not_single_scalar first rest Hnot).
    assert (Hlist : arrIncludes (keys first) "name" || arrIncludes (keys first) "globalId"
                    = true).
    { apply orb_true_iff. destruct Hcol as [H|H]; [left|right]; now apply arrIncludes_In. }
    rewrite Hlist. unfold maxRows.
    destruct (mapO_throws formatItem (firstn 10 (first :: rest))) as [e He].
    { apply Exists_exists in Hex as (r & Hr & Hmiss).
      apply Exists_exists. exists r. split; [exact Hr|].
      now apply formatItem_missing. }
    rewrite He. now exists e.
Qed.

(** The rows of an exact-label listing fallback: [name] and [globalId],
    no [nid]. *)
Lemma formatResult_throws_iff_witness :
  exists e,
    formatResult
      {| records := [ [("name", VScalar (SStr "Door A"));
                       ("globalId", VScalar (SStr "1a2b3c4d5e6f7g8h9i0jkl"))] ] |}
      "list all doors"
    = Throw e.
Proof.
  apply (proj2 (formatResult_throws_iff _ "list all doors")). split.
  - eexists. eexists. split; [reflexivity|]. split.
    + simpl. intros [_ H]. discriminate H.
    + left. simpl. now left.
  - apply Exists_cons_hd. intros (_ & _ & H). simpl in H.
    destruct H as [H|[H|[]]]; discriminate H.
Defined.



(* ================================================================= *)
(** ** extractGlobalIds: where the identifiers come from *)

Lemma setAdd_inv (ids : list Scalar) (x y : Scalar) :
  In y (setAdd ids x) -> In y ids \/ y = x.
Proof.
  unfold setAdd.
  destruct x; try destruct (existsb _ ids); auto;
    intros H; apply in_app_or in H as [H|[H|[]]]; auto.
Qed.

Lemma setAdd_extends (ids : list Scalar) (x : Scalar) :
  exists more, setAdd ids x = ids ++ more.
Proof.
  unfold setAdd.
  destruct x; try destruct (existsb _ ids);
    first [now exists [] ; rewrite app_nil_r | eexists; reflexivity | idtac].
  all: exists []; now rewrite app_nil_r.
Qed.

Lemma collectCell_inv (ids : list Scalar) (key : string) (value : Value) (z : Scalar) :
  In z (collectCell ids key value) -> In z ids \/ cellYields key value z.
Proof.
  unfold collectCell, cellYields.
  destruct value as [[| | |s]| |text bag]; auto.
  - destruct (includes (toLowerCase key) "globalid") eqn:Hk.
    + intros H. apply setAdd_inv in H as [H|H]; auto.
    + destruct (isGuid s) eqn:Hs; auto.
      intros H. apply setAdd_inv in H as [H|H]; auto.
  - destruct (bagGlobalId bag) as [g|]; auto.
    intros H. apply setAdd_inv in H as [H| ->]; auto.
Qed.

Lemma collectCell_extends (ids : list Scalar) (key : string) (value : Value) :
  exists more, collectCell ids key value = ids ++ more.
Proof.
  assert (Hsame : exists more, ids = ids ++ more) by (exists []; now rewrite app_nil_r).
  unfold collectCell.
  destruct value as [[| | |s]| |text bag]; auto.
  - destruct (includes _ _); [apply setAdd_extends|].
    destruct (isGuid s); [apply setAdd_extends | exact Hsame].
  - destruct (bagGlobalId bag); [apply setAdd_extends | exact Hsame].
Qed.

Lemma collectRecord_inv (record : Row) (ks : list string) :
  forall ids out z,
    collectRecord record ks ids = Return out ->
    In z out ->
    In z ids \/
    exists key value,
      In key ks /\ get record key = Return value /\ cellYields key value z.
Proof.
  induction ks as [|key ks IH]; intros ids out z; simpl.
  - intros E Hz. inversion E; subst. now left.
  - destruct (get record key) as [value|e] eqn:Hget; simpl; [|discriminate].
    intros E Hz. destruct (IH _ _ _ E Hz) as [Hin|(k & v & Hk & Hv & Hy)].
    + apply collectCell_inv in Hin as [Hin|Hy]; [now left|].
      right. exists key, value. auto.
    + right. exists k, v. auto.
Qed.

Lemma collectRecord_extends (record : Row) (ks : list string) :
  forall ids out,
    collectRecord record ks ids = Return out -> exists more, out = ids ++ more.
Proof.
  induction ks as [|key ks IH]; intros ids out; simpl.
  - intros E. inversion E. exists []. now rewrite app_nil_r.
  - destruct (get record key) as [value|e]; simpl; [|discriminate].
    intros E. destruct (IH _ _ E) as [more ->].
    destruct (collectCell_extends ids key value) as [more' ->].
    exists (more' ++ more). now rewrite app_assoc.
Qed.

Lemma collectRecords_inv (rows : list Row) :
  forall ids out z,
    collectRecords rows ids = Return out ->
    In z out ->
    In z ids \/
    exists record key value,
      In record rows /\ get record key = Return value /\ cellYields key value z.
Proof.
  induction rows as [|record rows IH]; intros ids out z; simpl.
  - intros E Hz. inversion E; subst. now left.
  - destruct (collectRecord record (keys record) ids) as [mid|e] eqn:Emid; simpl;
      [|discriminate].
    intros E Hz. destruct (IH _ _ _ E Hz) as [Hin|(r & k & v & Hr & Hv & Hy)].
    + destruct (collectRecord_inv _ _ _ _ _ Emid Hin) as [H|(k & v & _ & Hv & Hy)];
        [now left|].
      right. exists record, k, v. auto.
    + right. exists r, k, v. auto.
Qed.

Lemma collectRecords_extends (rows : list Row) :
  forall ids out,
    collectRecords rows ids = Return out -> exists more, out = ids ++ more.
Proof.
  induction rows as [|record rows IH]; intros ids out; simpl.
  - intros E. inversion E. exists []. now rewrite app_nil_r.
  - destruct (collectRecord record (keys record) ids) as [mid|e] eqn:Emid; simpl;
      [|discriminate].
    intros E. destruct (IH _ _ E) as [more ->].
    destruct (collectRecord_extends _ _ _ _ Emid) as [more' ->].
    exists (more' ++ more). now rewrite app_assoc.
Qed.

Lemma collectRecords_app (a b : list Row) (ids : list Scalar) :
  collectRecords (a ++ b) ids
  = (mid <- collectRecords a ids ;; collectRecords b mid).
Proof.
  revert ids. induction a as [|record a IH]; intros ids; simpl; [reflexivity|].
  destruct (collectRecord record (keys record) ids); simpl; [apply IH | reflexivity].
Qed.

(** X4.  extractGlobalIds invents nothing: every identifier it returns
    was taken from a cell of the result, either a string cell (in a
    column named like a global id, or of the 22-character form) or the
    truthy [GlobalId] or [globalId] of a node's properties.  Numbers,
    booleans, nulls and lists in the cells are never collected. *)
Theorem extractGlobalIds_sound (rows : list Row) (ids : list Scalar) (z : Scalar) :
  extractGlobalIds rows = Return ids ->
  In z ids ->
  exists record key value,
    In record rows /\ get record key = Return value /\ cellYields key value z.
Proof.
  intros E Hz.
  destruct (collectRecords_inv rows [] ids z E Hz) as [[]|H]. exact H.
Qed.

Lemma extractGlobalIds_sound_witness :
  exists record key value,
    In record [guidRow] /\ get record key = Return value /\
    cellYields key value (SStr "1a2b3c4d5e6f7g8h9i0jkl").
Proof.
  apply (extractGlobalIds_sound [guidRow] [SStr "1a2b3c4d5e6f7g8h9i0jkl"]).
  - reflexivity.
  - now left.
Defined.

(** X5.  More rows only add identifiers at the end: the identifiers of
    the rows [a ++ b] start with the identifiers of [a], in the same
    order. *)
Theorem extractGlobalIds_append (a b : list Row) :
  exists idsA more,
    extractGlobalIds a = Return idsA /\
    extractGlobalIds (a ++ b) = Return (idsA ++ more).
Proof.
  unfold extractGlobalIds.
  destruct (collectRecords_spec a []) as (idsA & Ea & _).
  destruct (collectRecords_spec b idsA) as (out & Eb & _).
  destruct (collectRecords_extends _ _ _ Eb) as [more ->].
  exists idsA, more. split; [exact Ea|].
  rewrite collectRecords_app, Ea. exact Eb.
Qed.

(* ================================================================= *)
(** ** generateFallbackQueries: how many candidates, and which *)

Lemma exactFallbacks_length (lq : string) (schema : Schema) (labelList : list string) :
  List.length (exactFallbacks lq schema labelList []) <= List.length labelList.
Proof.
  induction labelList as [|label rest IH]; cbn [exactFallbacks]; [apply Nat.le_refl|].
  destruct (objGet (labels schema) ("Ifc" +++ label)).
  - destruct (includes lq "how many" || includes lq "count");
      rewrite exactFallbacks_push, length_app; simpl; lia.
  - simpl. lia.
Qed.

Lemma generalFallbacks_length (lq : string) : List.length (generalFallbacks lq) <= 2.
Proof.
  unfold generalFallbacks.
  destruct (includes lq "how many" || includes lq "count");
    destruct (includes lq "what" || includes lq "show" || includes lq "list");
    simpl; lia.
Qed.

(** A property of the candidates that holds for the candidates of every
    concept and for the general ones holds for all of them. *)
Lemma generateFallbackQueries_Forall (P : Fallback -> Prop)
    (question : string) (schema : Schema) :
  let lq := toLowerCase question in
  (forall concept,
      In concept concepts ->
      Forall P (flexibleFallbacks lq concept) /\
      Forall P (exactFallbacks lq schema concept.(fragments) [])) ->
  Forall P (generalFallbacks lq) ->
  Forall P (generateFallbackQueries question schema).
Proof.
  intros lq Hconcept Hgeneral. unfold generateFallbackQueries. fold lq.
  apply Forall_app. split; [|exact Hgeneral].
  assert (H : forall cs acc,
             incl cs concepts -> Forall P acc ->
             Forall P (scanConcepts lq schema cs acc)).
  { induction cs as [|c cs IH]; intros acc Hcs Hacc; cbn [scanConcepts]; [exact Hacc|].
    destruct (conceptMatches lq c).
    - rewrite exactFallbacks_push.
      destruct (Hconcept c (Hcs c (or_introl eq_refl))) as [Hf He].
      apply Forall_app. split; [|exact He].
      apply Forall_app. split; assumption.
    - apply IH; [|exact Hacc]. intros x Hx. apply Hcs. now right. }
  apply H; [apply incl_refl | apply Forall_nil].
Qed.

Lemma generateFallbackQueries_at_most_five_aux (question : string) (schema : Schema) :
  List.length (generateFallbackQueries question schema) <= 5.
Proof.
  unfold generateFallbackQueries. rewrite length_app.
  pose proof (generalFallbacks_length (toLowerCase question)) as Hg.
  assert (H : forall cs,
             incl cs concepts ->
             List.length (scanConcepts (toLowerCase question) schema cs []) <= 3).
  { induction cs as [|c cs IH]; intros Hcs; cbn [scanConcepts]; [simpl; lia|].
    destruct (conceptMatches (toLowerCase question) c).
    - rewrite exactFallbacks_push, length_app. cbn [app].
      assert (Hin : In c concepts) by (apply Hcs; now left).
      destruct (flexibleFallbacks_flexible (toLowerCase question) c Hin) as [Hf _].
      pose proof (exactFallbacks_length (toLowerCase question) schema (fragments c)) as He.
      assert (Hfr : List.length (fragments c) <= 2).
      { simpl in Hin. decompose [or] Hin; try contradiction; subst c; simpl; lia. }
      lia.
    - apply IH. intros x Hx. apply Hcs. now right. }
  specialize (H concepts (incl_refl _)). lia.
Qed.

(** X6.  generateFallbackQueries returns five candidates at most: one
    flexible candidate, two exact-label candidates and two general
    ones. *)
Theorem generateFallbackQueries_at_most_five (question : string) (schema : Schema) :
  List.length (generateFallbackQueries question schema) <= 5.
Proof.
  apply generateFallbackQueries_at_most_five_aux.
Qed.

Lemma inPool_In (f : Fallback) : inPool f = true -> In f candidatePool.
Proof.
  unfold inPool. intros H. apply existsb_exists in H as (g & Hg & E).
  apply andb_prop in E as [E1 E2].
  apply String.eqb_eq in E1, E2.
  destruct f as [fs fc], g as [gs gc]. cbn [strategy cypher] in E1, E2.
  subst. exact Hg.
Qed.

(** The exact-label loop pushes, for a label, one of two candidates. *)
Lemma exactFallbacks_Forall (P : Fallback -> Prop) (lq : string) (schema : Schema)
    (labelList : list string) :
  (forall label,
      In label labelList ->
      P {| strategy := "exact_count_" +++ "Ifc" +++ label;
           cypher := "MATCH (n:`" +++ ("Ifc" +++ label) +++ "`) RETURN count(n) AS count" |}
      /\ P {| strategy := "exact_list_" +++ "Ifc" +++ label;
              cypher := "MATCH (n:`" +++ ("Ifc" +++ label)
                        +++ "`) RETURN coalesce(n.Name, n.ObjectType, 'Unnamed') AS name, coalesce(n.GlobalId, n.globalId, '') AS globalId LIMIT 10" |}) ->
  Forall P (exactFallbacks lq schema labelList []).
Proof.
  induction labelList as [|label rest IH]; intros H; cbn [exactFallbacks];
    [apply Forall_nil|].
  assert (IH' : Forall P (exactFallbacks lq schema rest [])).
  { apply IH. intros l Hl. apply H. now right. }
  destruct (H label (or_introl eq_refl)) as [Hc Hl].
  destruct (objGet (labels schema) ("Ifc" +++ label)); [|exact IH'].
  destruct (includes lq "how many" || includes lq "count");
    rewrite exactFallbacks_push; apply Forall_app; (split; [|exact IH']);
    (apply Forall_cons; [assumption | apply Forall_nil]).
Qed.

Lemma flexibleFallbacks_cases (lq : string) (concept : Concept) :
  flexibleFallbacks lq concept = flexibleFallbacks "count" concept
  \/ flexibleFallbacks lq concept = flexibleFallbacks "list" concept
  \/ flexibleFallbacks lq concept = [].
Proof.
  unfold flexibleFallbacks.
  destruct (includes lq "how many" || includes lq "count"); [now left|].
  destruct (includes lq "list" || includes lq "show" || includes lq "what");
    [right; now left | right; now right].
Qed.

Lemma candidatePool_flexible :
  forallb (fun c => forallb inPool (flexibleFallbacks "count" c)
                    && forallb inPool (flexibleFallbacks "list" c)) concepts = true.
Proof.
  vm_compute. reflexivity.
Qed.

Lemma candidatePool_exact :
  forallb (fun label =>
             inPool {| strategy := "exact_count_" +++ "Ifc" +++ label;
                       cypher := "MATCH (n:`" +++ ("Ifc" +++ label)
                                 +++ "`) RETURN count(n) AS count" |}
             && inPool {| strategy := "exact_list_" +++ "Ifc" +++ label;
                          cypher := "MATCH (n:`" +++ ("Ifc" +++ label)
                                    +++ "`) RETURN coalesce(n.Name, n.ObjectType, 'Unnamed') AS name, coalesce(n.GlobalId, n.globalId, '') AS globalId LIMIT 10" |})
          (flat_map fragments concepts) = true.
Proof.
  vm_compute. reflexivity.
Qed.

Lemma candidatePool_general :
  forallb inPool (generalFallbacks "count") && forallb inPool (generalFallbacks "list")
  = true.
Proof.
  vm_compute. reflexivity.
Qed.

(** X7.  Whatever the question and the schema, every candidate is one
    of the candidates of the probe questions on the full schema: the
    text of the question and the contents of the schema never become
    part of a fallback query. *)
Theorem generateFallbackQueries_from_pool (question : string) (schema : Schema) :
  incl (generateFallbackQueries question schema) candidatePool.
Proof.
  intros f Hf.
  assert (H : Forall (fun f => In f candidatePool)
                (generateFallbackQueries question schema)).
  { apply generateFallbackQueries_Forall.
    - intros concept Hin. split.
      + pose proof (proj1 (forallb_forall _ _) candidatePool_flexible concept Hin) as Hp.
        apply andb_prop in Hp as [Hc Hl].
        destruct (flexibleFallbacks_cases (toLowerCase question) concept)
          as [-> |[-> | ->]]; [| |apply Forall_nil];
          apply Forall_forall; intros g Hg; apply inPool_In.
        * exact (proj1 (forallb_forall _ _) Hc g Hg).
        * exact (proj1 (forallb_forall _ _) Hl g Hg).
      + apply exactFallbacks_Forall. intros label Hlabel.
        assert (Hall : In label (flat_map fragments concepts)).
        { apply in_flat_map. now exists concept. }
        pose proof (proj1 (forallb_forall _ _) candidatePool_exact label Hall) as Hp.
        apply andb_prop in Hp as [Hc Hl]. split; now apply inPool_In.
    - pose proof candidatePool_general as Hp. apply andb_prop in Hp as [Hc Hl].
      assert (Hcases : generalFallbacks (toLowerCase question) = generalFallbacks "count"
                       \/ generalFallbacks (toLowerCase question) = generalFallbacks "list"
                       \/ generalFallbacks (toLowerCase question)
                          = generalFallbacks "count" ++ generalFallbacks "list"
                       \/ generalFallbacks (toLowerCase question) = []).
      { unfold generalFallbacks.
        destruct (includes (toLowerCase question) "how many"
                  || includes (toLowerCase question) "count");
          destruct (includes (toLowerCase question) "what"
                    || includes (toLowerCase question) "show"
                    || includes (toLowerCase question) "list"); auto. }
      assert (Hcount : Forall (fun f => In f candidatePool) (generalFallbacks "count")).
      { apply Forall_forall. intros g Hg. apply inPool_In.
        exact (proj1 (forallb_forall _ _) Hc g Hg). }
      assert (Hlist : Forall (fun f => In f candidatePool) (generalFallbacks "list")).
      { apply Forall_forall. intros g Hg. apply inPool_In.
        exact (proj1 (forallb_forall _ _) Hl g Hg). }
      destruct Hcases as [-> |[-> |[-> | ->]]]; auto using Forall_nil.
      apply Forall_app. now split. }
  revert f Hf. now apply Forall_forall.
Qed.

(** X8.  A counting word takes precedence over a listing word.  With
    "how many" or "count" in the question every candidate is a counting
    one, except the final [show_labels] that a listing word adds;
    without them no candidate is a counting one. *)
Theorem generateFallbackQueries_counting (question : string) (schema : Schema) :
  let lq := toLowerCase question in
  Forall (fun f => if countingWord lq
                   then isCounting f = true \/ f.(strategy) = "show_labels"
                   else isCounting f = false)
         (generateFallbackQueries question schema).
Proof.
  intros lq. unfold countingWord.
  apply generateFallbackQueries_Forall; fold lq.
  - intros concept _. split.
    + unfold flexibleFallbacks.
      destruct (includes lq "how many" || includes lq "count").
      * apply Forall_cons; [|apply Forall_nil]. left.
        unfold isCounting. cbn [strategy]. now rewrite startsWith_append.
      * destruct (includes lq "list" || includes lq "show" || includes lq "what");
          [|apply Forall_nil].
        apply Forall_cons; [|apply Forall_nil]. reflexivity.
    + induction (fragments concept) as [|label rest IH]; cbn [exactFallbacks];
        [apply Forall_nil|].
      destruct (objGet (labels schema) ("Ifc" +++ label)); [|exact IH].
      destruct (includes lq "how many" || includes lq "count");
        rewrite exactFallbacks_push; apply Forall_app; (split; [|exact IH]);
        (apply Forall_cons; [|apply Forall_nil]).
      * left. unfold isCounting. cbn [strategy].
        rewrite (startsWith_append "exact_count_"). apply orb_true_r.
      * reflexivity.
  - unfold generalFallbacks.
    destruct (includes lq "how many" || includes lq "count");
      destruct (includes lq "what" || includes lq "show" || includes lq "list");
      cbn [app];
      repeat first [apply Forall_nil | apply Forall_cons]; auto.
Qed.

(** X9.  A question with a counting or a listing word always has a
    candidate.  A question with neither has exact-label listing
    candidates only, and none at all without a concept keyword. *)
Theorem generateFallbackQueries_intent (question : string) (schema : Schema) :
  let lq := toLowerCase question in
  (countingWord lq || listingWord lq = true ->
   generateFallbackQueries question schema <> [])
  /\ (countingWord lq || listingWord lq = false ->
      Forall (fun f => startsWith f.(strategy) "exact_list_" = true)
             (generateFallbackQueries question schema)
      /\ (Forall (fun c => conceptMatches lq c = false) concepts ->
          generateFallbackQueries question schema = [])).
Proof.
  intros lq. unfold countingWord, listingWord. split.
  - intros H Hnil. unfold generateFallbackQueries in Hnil. fold lq in Hnil.
    apply app_eq_nil in Hnil as [_ Hg]. unfold generalFallbacks in Hg.
    destruct (includes lq "how many" || includes lq "count"); [discriminate Hg|].
    cbn [orb] in H. cbn [app] in Hg.
    replace (includes lq "what" || includes lq "show" || includes lq "list")
      with (includes lq "list" || includes lq "show" || includes lq "what") in Hg
      by (destruct (includes lq "list"), (includes lq "show"), (includes lq "what");
          reflexivity).
    rewrite H in Hg. discriminate Hg.
  - intros H. apply orb_false_elim in H as [Hc Hl].
    assert (Hl' : includes lq "what" || includes lq "show" || includes lq "list" = false).
    { destruct (includes lq "list"), (includes lq "show"), (includes lq "what");
        try discriminate Hl; reflexivity. }
    split.
    + apply generateFallbackQueries_Forall; fold lq.
      * intros concept _. split.
        -- unfold flexibleFallbacks. rewrite Hc, Hl. apply Forall_nil.
        -- induction (fragments concept) as [|label rest IH]; cbn [exactFallbacks];
             [apply Forall_nil|].
           destruct (objGet (labels schema) ("Ifc" +++ label)); [|exact IH].
           rewrite Hc, exactFallbacks_push. apply Forall_app. split; [|exact IH].
           apply Forall_cons; [apply startsWith_append | apply Forall_nil].
      * unfold generalFallbacks. rewrite Hc, Hl'. apply Forall_nil.
    + intros Hnone. unfold generateFallbackQueries. fold lq.
      rewrite scanConcepts_no_match by exact Hnone.
      unfold generalFallbacks. rewrite Hc, Hl'. reflexivity.
Qed.

Lemma generateFallbackQueries_intent_witness :
  generateFallbackQueries "Show me something" doorSchema <> []
  /\ map strategy (generateFallbackQueries "doors" doorSchema) = ["exact_list_IfcDoor"]
  /\ generateFallbackQueries roofQuestion doorSchema = [].
Proof.
  split; [|split].
  - apply (proj1 (generateFallbackQueries_intent "Show me something" doorSchema)).
    reflexivity.
  - reflexivity.
  - apply (proj2 (generateFallbackQueries_intent roofQuestion doorSchema)).
    + reflexivity.
    + repeat constructor.
Defined.

(* ================================================================= *)
(** ** discoverSchema: what a discovery stores, and when the cache ends *)

(** discoverSchema in terms of its [try] block. *)
Lemma discoverSchema_unfold (db : SchemaDb) (now : Z) (w : World) :
  cacheFresh now w = false ->
  discoverSchema db now w
  = match discover db now (withEvents w [SessionOpen]) with
    | (Return obj, w1) => (Return obj, withEvents w1 [SessionClose])
    | (Throw _, w1) =>
        (Return {| address := w1.(nextAddress); snapshot := fallbackSchema |},
         {| schemaCache := w1.(schemaCache);
            schemaCacheTime := w1.(schemaCacheTime);
            nextAddress := S w1.(nextAddress);
            trace := w1.(trace) ++ [SessionClose] |})
    end.
Proof.
  intros H. rewrite (discoverSchema_stale db now w H).
  unfold bind, sessionOpen, sessionClose, tryFinally, tryCatch, emit.
  fold (withEvents w [SessionOpen]).
  destruct (discover db now (withEvents w [SessionOpen])) as [[obj|e] w1]; reflexivity.
Qed.

(** What a successful run of the [try] block has read and built. *)
Lemma discover_success (db : SchemaDb) (now : Z) (w : World)
    (obj : SchemaObject) (w' : World) :
  discover db now w = (Return obj, w') ->
  exists labelRecords relRecords labelMap w1,
    db.(labelCounts) = Return labelRecords /\
    db.(relationshipCounts) = Return relRecords /\
    discoverLabels db labelRecords [] (withEvents w [SessionRun labelsQuery])
    = (Return labelMap, w1) /\
    obj.(snapshot) = {| labels := labelMap;
                        relationships := discoverRelationships relRecords [] |} /\
    trace w' = trace w1 ++ [SessionRun relationshipsQuery].
Proof.
  unfold discover, bind. rewrite runTyped_eval.
  destruct (labelCounts db) as [labelRecords|e]; [|discriminate].
  destruct (discoverLabels db labelRecords [] (withEvents w [SessionRun labelsQuery]))
    as [[labelMap|e] w1] eqn:E; [|discriminate].
  rewrite runTyped_eval.
  destruct (relationshipCounts db) as [relRecords|e]; [|discriminate].
  unfold allocate, storeCache, ret. simpl. intros H. inversion H; subst.
  exists labelRecords, relRecords, labelMap, w1. repeat split; auto.
Qed.

Lemma objSet_keys_fresh {V : Type} (o : Obj V) (k : string) (v : V) :
  ~ In k (objKeys o) -> objKeys (objSet o k v) = objKeys o ++ [k].
Proof.
  intros H. rewrite objSet_fresh by exact H. unfold objKeys. now rewrite map_app.
Qed.

Lemma fold_addString_NoDup (ps set : list string) :
  NoDup set -> NoDup (fold_left addString ps set).
Proof.
  revert set. induction ps as [|p ps IH]; intros set H; simpl; [exact H|].
  apply IH. unfold addString.
  destruct (arrIncludes set p) eqn:E; [exact H|].
  apply NoDup_app; [exact H | repeat constructor; intros [] |].
  intros x Hx [<-|[]]. apply arrIncludes_In in Hx. congruence.
Qed.

Lemma readSamples_NoDup (propRecords : list SampleRow) :
  forall propertySet sampleList,
    NoDup propertySet ->
    NoDup (fst (readSamples propRecords propertySet sampleList)).
Proof.
  induction propRecords as [|r rest IH]; intros propertySet sampleList H; simpl;
    [exact H|].
  apply IH. now apply fold_addString_NoDup.
Qed.

(** The label loop keeps what holds of each entry it stores. *)
Lemma discoverLabels_tidy (db : SchemaDb) (labelRecords : list (string * Z)) :
  forall labelMap w out w',
    Forall (fun entry => List.length (snd entry).(samples) <= 2
                         /\ NoDup (snd entry).(properties)) labelMap ->
    discoverLabels db labelRecords labelMap w = (Return out, w') ->
    Forall (fun entry => List.length (snd entry).(samples) <= 2
                         /\ NoDup (snd entry).(properties)) out.
Proof.
  induction labelRecords as [|[label n] rest IH]; intros labelMap w out w' Hacc;
    cbn [discoverLabels].
  - intros E. inversion E. now subst.
  - destruct (0 <? n)%Z; [|now apply IH].
    unfold bind. rewrite runTyped_eval.
    destruct (sampleRows db label) as [propRecords|e]; [|discriminate].
    pose proof (readSamples_NoDup propRecords [] [] (NoDup_nil _)) as Hnd.
    destruct (readSamples propRecords [] []) as [propertySet sampleList].
    apply IH. apply objSet_Forall; [exact Hacc|].
    cbn [snd samples properties fst] in *. split.
    + apply firstn_le_length.
    + exact Hnd.
Qed.

Lemma discoverRelationships_positive (relRecords : list (string * Z)) :
  forall relMap,
    Forall (fun entry => (0 < snd entry)%Z) relMap ->
    Forall (fun entry => (0 < snd entry)%Z) (discoverRelationships relRecords relMap).
Proof.
  induction relRecords as [|[relType n] rest IH]; intros relMap H; simpl; [exact H|].
  destruct (0 <? n)%Z eqn:Hn; [|now apply IH].
  apply IH. apply objSet_Forall; [exact H|]. simpl. now apply Z.ltb_lt.
Qed.

Lemma discover_tidy (db : SchemaDb) (now : Z) (w : World)
    (obj : SchemaObject) (w' : World) :
  discover db now w = (Return obj, w') -> tidySchema obj.(snapshot).
Proof.
  intros H.
  destruct (discover_success _ _ _ _ _ H)
    as (labelRecords & relRecords & labelMap & w1 & _ & _ & El & -> & _).
  split; simpl.
  - apply discoverRelationships_positive. apply Forall_nil.
  - eapply discoverLabels_tidy; [apply Forall_nil | exact El].
Qed.

Lemma fallbackSchema_tidy : tidySchema fallbackSchema.
Proof.
  split; simpl; [apply Forall_nil|].
  repeat (apply Forall_cons;
          [split; [simpl; lia |
                   repeat (apply NoDup_cons; [simpl; intuition discriminate|]);
                   apply NoDup_nil]|]).
  apply Forall_nil.
Qed.

(** In the worlds the server can be in, the cached snapshot is tidy. *)
Lemma reachable_cache_tidy (w : World) :
  reachable w -> forall cached, w.(schemaCache) = Some cached -> tidySchema cached.(snapshot).
Proof.
  induction 1 as [|db now w _ IH|translator db question schema w _ IH].
  - intros cached H. discriminate H.
  - destruct (cacheFresh now w) eqn:Hfresh.
    + unfold discoverSchema. unfold cacheFresh in Hfresh.
      destruct (schemaCache w) as [c|] eqn:Ec; [|discriminate].
      rewrite Hfresh. simpl. rewrite Ec. exact IH.
    + rewrite (discoverSchema_unfold db now w Hfresh).
      destruct (discover db now (withEvents w [SessionOpen])) as [[obj|e] w1] eqn:E.
      * pose proof (discover_tidy _ _ _ _ _ E) as Ht.
        destruct (discover_cases db now (withEvents w [SessionOpen]))
          as [rest [(obj' & E' & _)|(e & E')]]; rewrite E' in E; [|discriminate].
        inversion E; subst. simpl. intros cached Hc. inversion Hc; subst. exact Ht.
      * destruct (discover_cases db now (withEvents w [SessionOpen]))
          as [rest [(obj' & E' & _)|(e' & E')]]; rewrite E' in E; [discriminate|].
        inversion E; subst. simpl. exact IH.
  - destruct (processQuery_world translator db question schema w) as [queries ->].
    exact IH.
Qed.

(** X10.  Every snapshot discoverSchema returns, on every path, is
    tidy: each relationship type has a count above zero, each label has
    two samples at most, and the property names of a label are listed
    without duplicates. *)
Theorem discoverSchema_tidy (db : SchemaDb) (now : Z) (w : World)
    (obj : SchemaObject) (w' : World) :
  reachable w ->
  discoverSchema db now w = (Return obj, w') ->
  tidySchema obj.(snapshot).
Proof.
  intros Hw. destruct (cacheFresh now w) eqn:Hfresh.
  - unfold discoverSchema. unfold cacheFresh in Hfresh.
    destruct (schemaCache w) as [c|] eqn:Ec; [|discriminate].
    rewrite Hfresh. intros H. inversion H; subst.
    eapply reachable_cache_tidy; eauto.
  - rewrite (discoverSchema_unfold db now w Hfresh).
    destruct (discover db now (withEvents w [SessionOpen])) as [[o|e] w1] eqn:E;
      intros H; inversion H; subst.
    + now apply (discover_tidy _ _ _ _ _ E).
    + apply fallbackSchema_tidy.
Qed.

Lemma discoverSchema_tidy_witness :
  exists obj w',
    discoverSchema doorDb 1000 initialWorld = (Return obj, w') /\
    tidySchema obj.(snapshot).
Proof.
  do 2 eexists. split; [reflexivity|].
  apply (discoverSchema_tidy doorDb 1000 initialWorld _ _ reachable_initial eq_refl).
Defined.

Lemma positiveCounts_cons (label : string) (n : Z) (rest : list (string * Z)) :
  positiveCounts ((label, n) :: rest)
  = if (0 <? n)%Z then (label, n) :: positiveCounts rest else positiveCounts rest.
Proof.
  reflexivity.
Qed.

(** The label loop runs one sample query for each record with a count
    above zero, in order, and adds these labels, with their counts, in
    order, when no label comes twice. *)
Lemma discoverLabels_run (db : SchemaDb) (labelRecords : list (string * Z)) :
  forall labelMap w out w',
    discoverLabels db labelRecords labelMap w = (Return out, w') ->
    trace w' = trace w
               ++ map SessionRun (map samplesQuery (map fst (positiveCounts labelRecords)))
    /\ (NoDup (map fst labelRecords) ->
        (forall k, In k (map fst labelRecords) -> ~ In k (objKeys labelMap)) ->
        map (fun entry => (fst entry, (snd entry).(count))) out
        = map (fun entry => (fst entry, (snd entry).(count))) labelMap
          ++ positiveCounts labelRecords).
Proof.
  induction labelRecords as [|[label n] rest IH]; intros labelMap w out w';
    cbn [discoverLabels].
  - intros E. inversion E; subst. simpl. now rewrite !app_nil_r.
  - rewrite positiveCounts_cons.
    destruct (0 <? n)%Z.
    + unfold bind. rewrite runTyped_eval.
      destruct (sampleRows db label) as [propRecords|e]; [|discriminate].
      destruct (readSamples propRecords [] []) as [propertySet sampleList].
      intros E. destruct (IH _ _ _ _ E) as [Ht Hm]. split.
      * rewrite Ht. simpl. now rewrite <- app_assoc.
      * intros Hnd Hfresh. inversion Hnd as [|? ? Hlabel Hnd']; subst.
        rewrite Hm; [|exact Hnd'|].
        -- rewrite objSet_fresh by (apply Hfresh; now left).
           rewrite map_app. simpl. now rewrite <- app_assoc.
        -- intros k Hk Hin.
           rewrite objSet_keys_fresh in Hin by (apply Hfresh; now left).
           apply in_app_or in Hin as [Hin|[<-|[]]].
           ++ apply (Hfresh k); [now right | exact Hin].
           ++ exact (Hlabel Hk).
    + intros E. destruct (IH _ _ _ _ E) as [Ht Hm]. split; [exact Ht|].
      intros Hnd Hfresh. inversion Hnd; subst. apply Hm; [assumption|].
      intros k Hk. apply Hfresh. now right.
Qed.

Lemma discoverRelationships_run (relRecords : list (string * Z)) :
  forall relMap,
    NoDup (map fst relRecords) ->
    (forall k, In k (map fst relRecords) -> ~ In k (objKeys relMap)) ->
    discoverRelationships relRecords relMap = relMap ++ positiveCounts relRecords.
Proof.
  induction relRecords as [|[relType n] rest IH]; intros relMap Hnd Hfresh;
    cbn [discoverRelationships].
  - simpl. now rewrite app_nil_r.
  - rewrite positiveCounts_cons. inversion Hnd as [|? ? Hk Hnd']; subst.
    destruct (0 <? n)%Z.
    + rewrite IH; [|exact Hnd'|].
      * rewrite objSet_fresh by (apply Hfresh; now left). now rewrite <- app_assoc.
      * intros k Hin Hin'.
        rewrite objSet_keys_fresh in Hin' by (apply Hfresh; now left).
        apply in_app_or in Hin' as [Hin'|[<-|[]]].
        -- apply (Hfresh k); [now right | exact Hin'].
        -- exact (Hk Hin).
    + apply IH; [exact Hnd'|]. intros k Hin. apply Hfresh. now right.
Qed.

(** X11.  A discovery that succeeds runs the labels query, one sample
    query for each label with a count above zero, in the order of the
    database's answer, and the relationships query, in one session.
    When the database names no label twice, the snapshot holds exactly
    the labels with a count above zero, with their counts, in the
    database's order; likewise for the relationship types. *)
Theorem discoverSchema_discovered (db : SchemaDb) (now : Z) (w : World) :
  exitPath db now w = Discovered ->
  exists labelRecords relRecords obj w',
    db.(labelCounts) = Return labelRecords /\
    db.(relationshipCounts) = Return relRecords /\
    discoverSchema db now w = (Return obj, w') /\
    trace w' = trace w
               ++ sessionEvents
                    (labelsQuery
                     :: map samplesQuery (map fst (positiveCounts labelRecords))
                     ++ [relationshipsQuery]) /\
    (NoDup (map fst labelRecords) ->
     labelCountsOf obj.(snapshot) = positiveCounts labelRecords) /\
    (NoDup (map fst relRecords) ->
     obj.(snapshot).(relationships) = positiveCounts relRecords).
Proof.
  unfold exitPath. destruct (cacheFresh now w) eqn:Hfresh; [discriminate|].
  rewrite (discoverSchema_unfold db now w Hfresh).
  destruct (discover db now (withEvents w [SessionOpen])) as [[obj|e] w1] eqn:E;
    [|discriminate].
  intros _.
  destruct (discover_success _ _ _ _ _ E)
    as (labelRecords & relRecords & labelMap & w2 & Hl & Hr & El & Hs & Ht).
  destruct (discoverLabels_run _ _ _ _ _ _ El) as [Ht2 Hm].
  exists labelRecords, relRecords, obj, (withEvents w1 [SessionClose]).
  split; [exact Hl|]. split; [exact Hr|]. split; [reflexivity|]. split; [|split].
  - simpl. rewrite Ht, Ht2. unfold sessionEvents. simpl.
    rewrite !map_app. simpl. rewrite <- !app_assoc. reflexivity.
  - intros Hnd. unfold labelCountsOf. rewrite Hs. simpl.
    rewrite Hm; [reflexivity | exact Hnd | intros k _ []].
  - intros Hnd. rewrite Hs. simpl.
    rewrite discoverRelationships_run; [reflexivity | exact Hnd | intros k _ []].
Qed.

Lemma discoverSchema_discovered_witness :
  exists obj w',
    discoverSchema doorDb 1000 initialWorld = (Return obj, w') /\
    trace w' = sessionEvents [labelsQuery; samplesQuery "IfcDoor";
                              samplesQuery "IfcSlab"; relationshipsQuery] /\
    labelCountsOf obj.(snapshot) = [("IfcDoor", 12%Z); ("IfcSlab", 4%Z)].
Proof.
  destruct (discoverSchema_discovered doorDb 1000 initialWorld eq_refl)
    as (labelRecords & relRecords & obj & w' & Hl & _ & E & Ht & Hc & _).
  inversion Hl; subst labelRecords.
  exists obj, w'. split; [exact E|]. split; [exact Ht|].
  apply Hc. repeat (apply NoDup_cons; [simpl; intuition discriminate|]). apply NoDup_nil.
Defined.



(* ================================================================= *)
(** ** processQuery: attempts, exceptions, number of queries *)

Lemma tryRun_eval (db : QueryDb) (query : string) (w : World) :
  tryRun db query w
  = (Return (match db (runCount w.(trace)) query with
             | Return r => Some r
             | Throw _ => None
             end),
     withEvents w [SessionRun query]).
Proof.
  unfold tryRun, tryCatch, bind, sessionRun, bind, emit, liftO, ret.
  destruct (db (runCount (trace w)) query); reflexivity.
Qed.

Lemma sessionRun_eval (db : QueryDb) (query : string) (w : World) :
  sessionRun db query w
  = (db (runCount w.(trace)) query, withEvents w [SessionRun query]).
Proof.
  unfold sessionRun, bind, emit, liftO.
  destruct (db (runCount (trace w)) query); reflexivity.
Qed.

(** The loop over the fallbacks runs the first [n] candidates and
    records them; it either leaves [cypher] and [result] as they were,
    having run all candidates, or ends with the result of the last
    candidate it ran. *)
Lemma tryFallbacks_cases (db : QueryDb) (fallbacks : list Fallback) :
  forall cy res tried w,
  exists n cy' res',
    n <= List.length fallbacks /\
    tryFallbacks db fallbacks cy res tried w
    = (Return (cy', res', tried ++ map attemptOf (firstn n fallbacks)),
       withEvents w (map SessionRun (map cypher (firstn n fallbacks)))) /\
    ((cy' = cy /\ res' = res /\ n = List.length fallbacks)
     \/ (exists r, res' = Some r /\ In cy' (map cypher (firstn n fallbacks)))).
Proof.
  induction fallbacks as [|f rest IH]; intros cy res tried w.
  - exists 0, cy, res. split; [apply Nat.le_refl|]. split.
    + simpl. unfold ret. now rewrite app_nil_r, withEvents_nil.
    + left. auto.
  - cbn [tryFallbacks]. unfold bind. rewrite tryRun_eval.
    destruct (db (runCount (trace w)) (cypher f)) as [r|e].
    + exists 1, (cypher f), (Some r). split; [simpl; lia|]. split; [reflexivity|].
      right. exists r. split; [reflexivity | now left].
    + destruct (IH cy res (tried ++ [attemptOf f]) (withEvents w [SessionRun (cypher f)]))
        as (n & cy' & res' & Hn & E & Hcases).
      exists (S n), cy', res'. split; [simpl; lia|]. split.
      * unfold attemptOf in E at 1. rewrite E. cbn [firstn map].
        rewrite withEvents_app, <- app_assoc. reflexivity.
      * destruct Hcases as [(-> & -> & ->)|(r & -> & Hin)]; [left; auto|].
        right. exists r. split; [reflexivity | now right].
Qed.

(** The [try] block of processQuery, case by case. *)
Lemma resolve_cases (translator : Translator) (db : QueryDb)
    (question : string) (schema : Schema) (w : World) :
  match translator (buildPrompt question schema) with
  | Throw e => resolve translator db question schema w = (Throw e, w)
  | Return content =>
      exists queries r,
        resolve translator db question schema w
        = (r, withEvents w (map SessionRun (cleanCypher content :: queries))) /\
        List.length queries
        <= S (List.length (generateFallbackQueries question schema)) /\
        match r with
        | Return answer =>
            map attemptCypher answer.(attempts) = cleanCypher content :: queries /\
            In answer.(answerCypher) (cleanCypher content :: queries)
        | Throw e =>
            exists before n,
              queries = before ++ [ultimateFallback] /\
              db n ultimateFallback = Throw e
        end
  end.
Proof.
  unfold resolve, bind, liftO.
  destruct (translator (buildPrompt question schema)) as [content|e]; [|reflexivity].
  rewrite tryRun_eval.
  set (cy := cleanCypher content).
  set (w1 := withEvents w [SessionRun cy]).
  assert (Hfb : forall res,
             exists queries r,
               resolveFallbacks db question schema cy res
                 [ {| attemptCypher := cy; source := "AI" |} ] w1
               = (r, withEvents w (map SessionRun (cy :: queries))) /\
               List.length queries
               <= S (List.length (generateFallbackQueries question schema)) /\
               match r with
               | Return answer =>
                   map attemptCypher answer.(attempts) = cy :: queries /\
                   In answer.(answerCypher) (cy :: queries)
               | Throw e =>
                   exists before n,
                     queries = before ++ [ultimateFallback] /\
                     db n ultimateFallback = Throw e
               end).
  { intros res. unfold resolveFallbacks, bind.
    destruct (tryFallbacks_cases db (generateFallbackQueries question schema) cy res
                [ {| attemptCypher := cy; source := "AI" |} ] w1)
      as (n & cy' & res' & Hn & E & Hcases).
    rewrite E.
    set (ran := firstn n (generateFallbackQueries question schema)) in *.
    assert (Hlen : List.length (map cypher ran) <= List.length
                     (generateFallbackQueries question schema)).
    { rewrite length_map. unfold ran. rewrite length_firstn. lia. }
    assert (Hatt : map attemptCypher (map attemptOf ran) = map cypher ran).
    { rewrite map_map. reflexivity. }
    destruct res' as [r|].
    - exists (map cypher ran). eexists. split; [|split; [lia|]].
      + unfold ret, w1. rewrite withEvents_app. reflexivity.
      + cbn [attempts answerCypher]. split.
        * rewrite map_app, Hatt. reflexivity.
        * destruct Hcases as [(-> & _)|(r' & _ & Hin)]; [now left | now right].
    - rewrite sessionRun_eval.
      exists (map cypher ran ++ [ultimateFallback]).
      destruct (db _ ultimateFallback) as [r|e] eqn:Hu.
      + exists (Return {| answerCypher := ultimateFallback; result := r;
                          attempts := ([ {| attemptCypher := cy; source := "AI" |} ]
                                       ++ map attemptOf ran)
                                      ++ [ {| attemptCypher := ultimateFallback;
                                              source := "ultimate_fallback" |} ] |}).
        split; [|split].
        * unfold ret, w1. rewrite !withEvents_app. cbn [app map].
          rewrite map_app. reflexivity.
        * rewrite length_app. simpl. lia.
        * cbn [attempts answerCypher]. split.
          -- rewrite !map_app, Hatt. reflexivity.
          -- right. apply in_or_app. right. now left.
      + exists (Throw e). split; [|split].
        * unfold w1. rewrite !withEvents_app. cbn [app map].
          rewrite map_app. reflexivity.
        * rewrite length_app. simpl. lia.
        * eexists. eexists. split; [reflexivity | exact Hu]. }
  destruct (db (runCount (trace w)) cy) as [r|e0].
  - destruct (0 <? List.length (records r))%nat.
    + exists [], (Return {| answerCypher := cy; result := r;
                           attempts := [ {| attemptCypher := cy; source := "AI" |} ] |}).
      split; [reflexivity|]. split; [simpl; lia|]. split; [reflexivity | now left].
    + apply Hfb.
  - apply Hfb.
Qed.

(** processQuery in terms of its [try] block. *)
Lemma processQuery_unfold (translator : Translator) (db : QueryDb)
    (question : string) (schema : Schema) (w : World) :
  processQuery translator db question schema w
  = let '(r, w1) := resolve translator db question schema (withEvents w [SessionOpen]) in
    (r, withEvents w1 [SessionClose]).
Proof.
  unfold processQuery, bind, sessionOpen, sessionClose, tryFinally, emit.
  fold (withEvents w [SessionOpen]).
  destruct (resolve translator db question schema (withEvents w [SessionOpen])).
  reflexivity.
Qed.

(** X13.  When processQuery returns, its attempts are exactly the
    queries it ran in its session, in order, and the query it returns
    is one of them. *)
Theorem processQuery_attempts (translator : Translator) (db : QueryDb)
    (question : string) (schema : Schema) (w : World) (answer : Answer) (w' : World) :
  processQuery translator db question schema w = (Return answer, w') ->
  trace w' = trace w ++ sessionEvents (map attemptCypher answer.(attempts))
  /\ In answer.(answerCypher) (map attemptCypher answer.(attempts)).
Proof.
  rewrite processQuery_unfold.
  pose proof (resolve_cases translator db question schema (withEvents w [SessionOpen])) as P.
  destruct (translator (buildPrompt question schema)) as [content|e].
  - destruct P as (queries & r & -> & _ & Hr).
    intros H. inversion H; subst. destruct Hr as [-> Hin].
    split; [|exact Hin].
    unfold sessionEvents. simpl. rewrite <- !app_assoc. reflexivity.
  - rewrite P. discriminate.
Qed.

Lemma processQuery_attempts_witness :
  exists answer w',
    processQuery roofTranslator roofDb "how many doors" doorSchema initialWorld
    = (Return answer, w')
    /\ trace w' = sessionEvents (map attemptCypher answer.(attempts))
    /\ map source answer.(attempts) = ["AI"; "count_door"].
Proof.
  do 2 eexists. split; [reflexivity|]. split; [|reflexivity].
  apply (proj1 (processQuery_attempts roofTranslator roofDb "how many doors" doorSchema
                  initialWorld _ _ eq_refl)).
Defined.

(** X14.  processQuery throws in two cases only.  Either the
    translator throws: then no query is run, and the session is opened
    and closed.  Or the ultimate fallback throws, as the last query of
    the session.  An exception of the generated query or of a fallback
    candidate is never thrown. *)
Theorem processQuery_throws (translator : Translator) (db : QueryDb)
    (question : string) (schema : Schema) (w : World) (e : string) (w' : World) :
  processQuery translator db question schema w = (Throw e, w') ->
  (translator (buildPrompt question schema) = Throw e /\
   trace w' = trace w ++ sessionEvents [])
  \/ (exists queries n,
        trace w' = trace w ++ sessionEvents (queries ++ [ultimateFallback]) /\
        db n ultimateFallback = Throw e).
Proof.
  rewrite processQuery_unfold.
  pose proof (resolve_cases translator db question schema (withEvents w [SessionOpen])) as P.
  destruct (translator (buildPrompt question schema)) as [content|e0].
  - destruct P as (queries & r & -> & _ & Hr).
    intros H. inversion H; subst. destruct Hr as (before & n & -> & Hu).
    right. exists (cleanCypher content :: before), n. split; [|exact Hu].
    unfold sessionEvents. simpl. rewrite <- !app_assoc. reflexivity.
  - rewrite P. intros H. inversion H; subst. left. split; [reflexivity|].
    unfold sessionEvents. simpl. rewrite <- !app_assoc. reflexivity.
Qed.

Lemma processQuery_throws_witness :
  trace (snd (processQuery (fun _ => Throw "Request timed out") roofDb roofQuestion
                doorSchema initialWorld))
  = sessionEvents []
  \/ exists queries n,
       trace (snd (processQuery (fun _ => Throw "Request timed out") roofDb roofQuestion
                     doorSchema initialWorld))
       = sessionEvents (queries ++ [ultimateFallback])
       /\ roofDb n ultimateFallback = Throw "Request timed out".
Proof.
  destruct (processQuery_throws (fun _ => Throw "Request timed out") roofDb roofQuestion
              doorSchema initialWorld "Request timed out" _ eq_refl)
    as [[_ H]|(queries & n & H & Hu)].
  - left. exact H.
  - right. exists queries, n. split; [exact H | exact Hu].
Defined.

(** X15.  processQuery runs seven queries at most: the generated one,
    five fallback candidates at most, and the ultimate fallback. *)
Theorem processQuery_at_most_seven_queries (translator : Translator) (db : QueryDb)
    (question : string) (schema : Schema) (w : World) :
  exists queries,
    trace (snd (processQuery translator db question schema w))
    = trace w ++ sessionEvents queries
    /\ List.length queries <= 7.
Proof.
  rewrite processQuery_unfold.
  pose proof (resolve_cases translator db question schema (withEvents w [SessionOpen])) as P.
  pose proof (generateFallbackQueries_at_most_five_aux question schema) as H5.
  destruct (translator (buildPrompt question schema)) as [content|e0].
  - destruct P as (queries & r & -> & Hlen & _).
    exists (cleanCypher content :: queries). split.
    + unfold sessionEvents. simpl. rewrite <- !app_assoc. reflexivity.
    + simpl. lia.
  - rewrite P. exists []. split; [|simpl; lia].
    unfold sessionEvents. simpl. rewrite <- !app_assoc. reflexivity.
Qed.

(* ================================================================= *)
(** ** generateSchemaHint: what the hint depends on *)

Lemma objGet_labelCounts (labels : Obj LabelInfo) (label : string) :
  objGet (map (fun entry => (fst entry, (snd entry).(count))) labels) label
  = option_map count (objGet labels label).
Proof.
  induction labels as [|[k info] rest IH]; [reflexivity|].
  cbn [map objGet fst snd]. destruct (String.eqb k label); [reflexivity | exact IH].
Qed.

Lemma labelLine_counts (labels : Obj LabelInfo) (label : string) :
  labelLine labels label
  = "- " +++ label +++ " ("
    +++ match objGet (map (fun entry => (fst entry, (snd entry).(count))) labels) label with
        | Some n => intToString n
        | None => "undefined"
        end
    +++ " nodes)".
Proof.
  unfold labelLine. rewrite objGet_labelCounts.
  destruct (objGet labels label); reflexivity.
Qed.

(** X16.  The hint is a function of the label names with their counts
    and of the first ten relationship type names: two snapshots that
    agree on these give the same hint, whatever their samples, their
    property names, their relationship counts and their further
    relationship types are. *)
Theorem generateSchemaHint_depends_on (s1 s2 : Schema) :
  labelCountsOf s1 = labelCountsOf s2 ->
  firstn 10 (objKeys s1.(relationships)) = firstn 10 (objKeys s2.(relationships)) ->
  generateSchemaHint s1 = generateSchemaHint s2.
Proof.
  intros Hlabels Hrels.
  assert (Hkeys : objKeys s1.(labels) = objKeys s2.(labels)).
  { unfold labelCountsOf in Hlabels. apply (f_equal (map fst)) in Hlabels.
    rewrite !map_map in Hlabels. exact Hlabels. }
  assert (HL : hintLabels s1 = hintLabels s2).
  { unfold hintLabels. rewrite Hkeys. apply map_ext. intros label.
    rewrite !labelLine_counts. unfold labelCountsOf in Hlabels. now rewrite Hlabels. }
  assert (HM : hintMappings s1 = hintMappings s2).
  { unfold hintMappings. now rewrite Hkeys. }
  unfold generateSchemaHint. rewrite HL, HM. unfold hintRelationships.
  now rewrite Hrels.
Qed.

Lemma generateSchemaHint_depends_on_witness :
  generateSchemaHint doorSchema
  = generateSchemaHint
      {| labels := [ ("IfcDoor", {| count := 12;
                                    properties := ["Name"; "FireRating"];
                                    samples := [ {| nid := SInt 7;
                                                    name := SStr "Entrance";
                                                    globalId := SNull |} ] |});
                     ("IfcSlab", {| count := 4; properties := []; samples := [] |}) ];
         relationships := [("CONTAINS", 99%Z)] |}.
Proof.
  refine (generateSchemaHint_depends_on doorSchema _ _ _); reflexivity.
Defined.

(* ================================================================= *)
(** ** cleanCypher: code fences *)

Lemma startsWith_nil (s : string) : startsWith s "" = true.
Proof.
  destruct s; reflexivity.
Qed.

Lemma startsWith_cons (c : ascii) (s : string) (a : ascii) (p : string) :
  startsWith (String c s) (String a p) = Ascii.eqb a c && startsWith s p.
Proof.
  unfold startsWith. simpl. destruct (ascii_dec a c) as [->|ne].
  - now rewrite Ascii.eqb_refl.
  - apply Ascii.eqb_neq in ne. now rewrite ne.
Qed.

Lemma startsWith_shorter (s p q : string) :
  startsWith s (p +++ q) = true -> startsWith s p = true.
Proof.
  intros H. destruct (startsWith_inv _ _ H) as [rest ->].
  rewrite append_assoc. apply startsWith_append.
Qed.

(** What is left after the fences are removed begins with a backquote
    only if the text did, and with two only if the text did. *)
Lemma removeAll_fence_head1 (s : string) :
  startsWith (removeAll "```" 0 false s) "`" = true -> startsWith s "`" = true.
Proof.
  destruct s as [|c s]; [auto|].
  cbn [removeAll andb]. rewrite !startsWith_cons.
  destruct (Ascii.eqb "`" c) eqn:Ec; cbn [andb].
  - intros _. apply startsWith_nil.
  - rewrite startsWith_cons, Ec. discriminate.
Qed.

Lemma removeAll_fence_head2 (s : string) :
  startsWith (removeAll "```" 0 false s) "``" = true -> startsWith s "``" = true.
Proof.
  destruct s as [|c s]; [auto|].
  cbn [removeAll andb]. rewrite !startsWith_cons.
  destruct (Ascii.eqb "`" c) eqn:Ec; cbn [andb].
  - destruct (startsWith s "``") eqn:E2.
    + intros _. exact (startsWith_shorter s "`" "`" E2).
    + rewrite startsWith_cons, Ec. cbn [andb]. apply removeAll_fence_head1.
  - rewrite startsWith_cons, Ec. discriminate.
Qed.

Lemma removeAll_no_fence (s : string) :
  forall skip lf, includes (removeAll "```" skip lf s) "```" = false.
Proof.
  induction s as [|c s IH]; intros skip lf; [reflexivity|].
  cbn [removeAll]. destruct skip as [|k]; [|apply IH].
  destruct (lf && _)%bool; [apply IH|].
  destruct (startsWith (String c s) "```") eqn:E; [apply IH|].
  rewrite includes_unfold, IH.
  destruct (startsWith (String c (removeAll "```" 0 false s)) "```") eqn:E'; [|reflexivity].
  rewrite startsWith_cons in E, E'.
  apply andb_true_iff in E'. destruct E' as [Ec E2].
  apply removeAll_fence_head2 in E2. rewrite Ec, E2 in E. discriminate.
Qed.

Lemma trimStart_suffix (s : string) : exists a, s = a +++ trimStart s.
Proof.
  induction s as [|c s [a IH]].
  - now exists "".
  - cbn [trimStart]. destruct (isSpace c).
    + exists (String c a). simpl. now rewrite <- IH.
    + now exists "".
Qed.

Lemma trimEnd_prefix (s : string) : exists b, s = trimEnd s +++ b.
Proof.
  induction s as [|c s [b IH]].
  - now exists "".
  - cbn [trimEnd]. destruct (trimEnd s) as [|d t].
    + simpl in IH. destruct (isSpace c).
      * now exists (String c s).
      * exists s. reflexivity.
    + exists b. simpl. simpl in IH. now rewrite <- IH.
Qed.

Lemma includes_trim (s needle : string) :
  includes (trim s) needle = true -> includes s needle = true.
Proof.
  intros H. unfold trim in H.
  destruct (trimStart_suffix s) as [a Ea].
  destruct (trimEnd_prefix (trimStart s)) as [b Eb].
  rewrite Ea, Eb. apply includes_after, includes_before, H.
Qed.

(** X17.  The query that processQuery takes from the translator's
    reply holds no code fence: no run of three backquotes is left in
    it, whatever the reply was. *)
Theorem cleanCypher_no_fence (content : option string) :
  includes (cleanCypher content) "```" = false.
Proof.
  unfold cleanCypher.
  destruct (includes (trim (removeAll "```" 0 false _)) "```") eqn:E; [|reflexivity].
  apply includes_trim in E. rewrite removeAll_no_fence in E. discriminate.
Qed.







(* ================================================================= *)
(** ** The request handlers *)

(** discoverSchema never throws; it adds nothing to the trace, or one
    session. *)
Lemma discoverSchema_returns (db : SchemaDb) (now : Z) (w : World) :
  exists obj w' discovery,
    discoverSchema db now w = (Return obj, w') /\
    trace w' = trace w ++ discovery /\
    (discovery = [] \/ exists schemaQueries, discovery = sessionEvents schemaQueries) /\
    (exitPath db now w = DiscoveryFailed -> obj.(snapshot) = fallbackSchema).
Proof.
  pose proof (discoverSchema_paths db now w) as P.
  destruct (exitPath db now w).
  - destruct P as (cached & _ & E). exists cached, w, []. rewrite E, app_nil_r.
    repeat split; auto. discriminate.
  - destruct P as (rest & obj & E & _). rewrite E. do 3 eexists.
    split; [reflexivity|]. split; [reflexivity|]. split; [right; eauto | discriminate].
  - destruct P as (rest & E). rewrite E. do 3 eexists.
    split; [reflexivity|]. split; [reflexivity|]. split; [right; eauto | reflexivity].
Qed.



(** The [try] block of POST /ask, once the schema is there and
    processQuery has run. *)
Lemma answerQuestion_eval (nodeEnv : option string) (schemaDb : SchemaDb) (now : Z)
    (translator : Translator) (db : QueryDb) (question : string) (w : World)
    (obj : SchemaObject) (w1 : World) (r : Outcome Answer) (w2 : World) :
  discoverSchema schemaDb now w = (Return obj, w1) ->
  processQuery translator db question obj.(snapshot) w1 = (r, w2) ->
  answerQuestion nodeEnv schemaDb now translator db question w
  = match r with
    | Throw e => (Throw e, w2)
    | Return answer =>
        match formatResult answer.(result) question with
        | Throw e => (Throw e, w2)
        | Return answerText =>
            match extractGlobalIds answer.(result).(records) with
            | Throw e => (Throw e, w2)
            | Return globalIds =>
                (Return
                   {| statusCode := 200;
                      body :=
                        AskBody question answer.(answerCypher) answerText globalIds
                          match nodeEnv with
                          | Some env =>
                              if String.eqb env "development"
                              then Some {| schemaLabels := objKeys obj.(snapshot).(labels);
                                           queryAttempts := answer.(attempts);
                                           resultCount :=
                                             List.length answer.(result).(records) |}
                              else None
                          | None => None
                          end |},
                 w2)
            end
        end
    end.
Proof.
  intros Ed Ep. unfold answerQuestion, bind. rewrite Ed, Ep.
  destruct r as [answer|e]; [|reflexivity].
  unfold liftO. destruct (formatResult (result answer) question); [|reflexivity].
  destruct (extractGlobalIds (records (result answer))); reflexivity.
Qed.

(** X19.  POST /ask always sends a response: it never throws.  Without
    a question, or with the empty one, it sends status 400 and does
    nothing else: no session, and the cache as it was.  With a
    question it sends status 200 or 500, and what it adds to the trace
    is the session of the schema discovery, if there was one, followed
    by the session of processQuery, each of them closed. *)
Theorem handleAsk_responds (nodeEnv : option string) (schemaDb : SchemaDb) (now : Z)
    (translator : Translator) (db : QueryDb) (question : option string) (w : World) :
  exists resp w',
    handleAsk nodeEnv schemaDb now translator db question w = (Return resp, w') /\
    (((question = None \/ question = Some "") /\
      resp = {| statusCode := 400; body := QuestionRequired |} /\ w' = w)
     \/ (exists q discovery queries,
           question = Some q /\ q <> "" /\
           (resp.(statusCode) = 200 \/ resp.(statusCode) = 500) /\
           trace w' = trace w ++ discovery ++ sessionEvents queries /\
           (discovery = []
            \/ exists schemaQueries, discovery = sessionEvents schemaQueries))).
Proof.
  destruct question as [q|]; [destruct (String.eqb q "") eqn:Eq|].
  - apply String.eqb_eq in Eq. subst q. do 2 eexists. split; [reflexivity|].
    left. auto.
  - unfold handleAsk. rewrite Eq. unfold tryCatch.
    destruct (discoverSchema_returns schemaDb now w)
      as (obj & w1 & discovery & Ed & Ht & Hform & _).
    destruct (processQuery_world translator db q (snapshot obj) w1) as (queries & Ew).
    destruct (processQuery translator db q (snapshot obj) w1) as [r w2] eqn:Ep.
    cbn [snd] in Ew.
    rewrite (answerQuestion_eval nodeEnv schemaDb now translator db q w obj w1 r w2 Ed Ep).
    assert (Htrace : trace w2 = trace w ++ discovery ++ sessionEvents queries).
    { rewrite Ew. unfold withEvents. cbn [trace]. now rewrite Ht, <- app_assoc. }
    assert (Hq : q <> "") by (now apply String.eqb_neq).
    destruct r as [answer|e].
    + destruct (formatResult (result answer) q) as [text|e].
      * destruct (extractGlobalIds (records (result answer))) as [ids|e].
        -- do 2 eexists. split; [reflexivity|]. right. exists q, discovery, queries.
           repeat split; auto.
        -- do 2 eexists. split; [reflexivity|]. right. exists q, discovery, queries.
           repeat split; auto.
      * do 2 eexists. split; [reflexivity|]. right. exists q, discovery, queries.
        repeat split; auto.
    + do 2 eexists. split; [reflexivity|]. right. exists q, discovery, queries.
      repeat split; auto.
  - do 2 eexists. split; [reflexivity|]. left. auto.
Qed.



(** X21.  A response of POST /ask with status 200 is put together from
    the calls in this order: discoverSchema, processQuery on its
    snapshot, formatResult and extractGlobalIds on the result of
    processQuery.  It echoes the question and gives the query that
    processQuery settled on.  The debug object is there exactly when
    NODE_ENV is "development"; it has the label names of the snapshot,
    the attempts and the number of rows. *)
Theorem handleAsk_success (nodeEnv : option string) (schemaDb : SchemaDb) (now : Z)
    (translator : Translator) (db : QueryDb) (question : option string) (w : World)
    (resp : Response) (w' : World) :
  handleAsk nodeEnv schemaDb now translator db question w = (Return resp, w') ->
  resp.(statusCode) = 200 ->
  exists q obj w1 answer answerText ids debug,
    question = Some q /\
    discoverSchema schemaDb now w = (Return obj, w1) /\
    processQuery translator db q obj.(snapshot) w1 = (Return answer, w') /\
    formatResult answer.(result) q = Return answerText /\
    extractGlobalIds answer.(result).(records) = Return ids /\
    resp.(body) = AskBody q answer.(answerCypher) answerText ids debug /\
    (nodeEnv = Some "development" ->
     debug = Some {| schemaLabels := objKeys obj.(snapshot).(labels);
                     queryAttempts := answer.(attempts);
                     resultCount := List.length answer.(result).(records) |}) /\
    (nodeEnv <> Some "development" -> debug = None).
Proof.
  destruct question as [q|]; [destruct (String.eqb q "") eqn:Eq|];
    unfold handleAsk; rewrite ?Eq.
  - intros H. inversion H; subst. discriminate.
  - unfold tryCatch.
    destruct (discoverSchema_returns schemaDb now w)
      as (obj & w1 & discovery & Ed & _).
    destruct (processQuery translator db q (snapshot obj) w1) as [r w2] eqn:Ep.
    rewrite (answerQuestion_eval nodeEnv schemaDb now translator db q w obj w1 r w2 Ed Ep).
    destruct r as [answer|e].
    + destruct (formatResult (result answer) q) as [text|e] eqn:Ef.
      * destruct (extractGlobalIds (records (result answer))) as [ids|e] eqn:Ei.
        -- intros H _. inversion H; subst. cbn [body].
           do 7 eexists. split; [reflexivity|]. split; [exact Ed|].
           split; [exact Ep|]. split; [exact Ef|]. split; [exact Ei|].
           split; [reflexivity|]. split.
           ++ intros ->. reflexivity.
           ++ intros Hne. destruct nodeEnv as [env|]; [|reflexivity].
              destruct (String.eqb env "development") eqn:Eenv; [|reflexivity].
              apply String.eqb_eq in Eenv. subst env. now elim Hne.
        -- intros H. inversion H; subst. discriminate.
      * intros H. inversion H; subst. discriminate.
    + intros H. inversion H; subst. discriminate.
  - intros H. inversion H; subst. discriminate.
Qed.

Lemma handleAsk_success_witness :
  exists resp w',
    handleAsk (Some "development") doorDb 0 roofTranslator roofDb
      (Some "how many doors") initialWorld = (Return resp, w')
    /\ resp.(statusCode) = 200
    /\ exists cy answerText ids debug,
         resp.(body) = AskBody "how many doors" cy answerText ids (Some debug).
Proof.
  pose (run := handleAsk (Some "development") doorDb 0 roofTranslator roofDb
                 (Some "how many doors") initialWorld).
  pose (resp := match fst run with
                | Return r => r
                | Throw _ => {| statusCode := 0; body := QuestionRequired |}
                end).
  assert (E : run = (Return resp, snd run)) by (vm_compute; reflexivity).
  assert (Hs : resp.(statusCode) = 200) by (vm_compute; reflexivity).
  exists resp, (snd run). split; [exact E|]. split; [exact Hs|].
  destruct (handleAsk_success (Some "development") doorDb 0 roofTranslator roofDb
              (Some "how many doors") initialWorld resp (snd run) E Hs)
    as (q & obj & w1 & answer & answerText & ids & debug & Hq & _ & _ & _ & _ & Hb & Hdev & _).
  injection Hq as <-. rewrite (Hdev eq_refl) in Hb.
  do 4 eexists. exact Hb.
Defined.

(** X22.  GET /health always sends a response.  When the database
    answers the probe query it sends status 200 after closing its
    session.  When the probe query throws it sends status 503 with the
    message of the exception, and the session it opened is not closed:
    the trace ends with the query. *)
Theorem handleHealth_cases (db : QueryDb) (w : World) :
  exists resp w',
    handleHealth db w = (Return resp, w') /\
    match db (runCount w.(trace)) "RETURN 1" with
    | Return _ =>
        resp = {| statusCode := 200; body := Healthy |} /\
        trace w' = trace w ++ sessionEvents ["RETURN 1"]
    | Throw message =>
        resp = {| statusCode := 503; body := Unhealthy message |} /\
        trace w' = trace w ++ [SessionOpen; SessionRun "RETURN 1"] /\
        opened (trace w') = S (opened (trace w)) /\
        closed (trace w') = closed (trace w)
    end.
Proof.
  unfold handleHealth, tryCatch, bind, sessionOpen, sessionClose, respond, ret.
  unfold emit at 1. fold (withEvents w [SessionOpen]).
  rewrite sessionRun_eval.
  replace (runCount (trace (withEvents w [SessionOpen]))) with (runCount (trace w))
    by (unfold withEvents, runCount; cbn [trace]; rewrite filter_app, length_app;
        simpl; lia).
  destruct (db (runCount (trace w)) "RETURN 1") as [r|message].
  - do 2 eexists. split; [reflexivity|]. split; [reflexivity|].
    unfold sessionEvents. simpl. rewrite <- !app_assoc. reflexivity.
  - do 2 eexists. split; [reflexivity|]. split; [reflexivity|].
    assert (Ht : trace (withEvents (withEvents w [SessionOpen]) [SessionRun "RETURN 1"])
                 = trace w ++ [SessionOpen; SessionRun "RETURN 1"]).
    { simpl. rewrite <- !app_assoc. reflexivity. }
    rewrite Ht. split; [reflexivity|].
    unfold opened, closed. rewrite !filter_app, !length_app. simpl. lia.
Qed.

(** X23.  GET /schema always sends status 200 with the snapshot that
    discoverSchema returns; its 500 response is never sent.  When the
    discovery fails, the body is the fallback snapshot. *)
Theorem handleSchema_always_200 (schemaDb : SchemaDb) (now : Z) (w : World) :
  exists obj w',
    discoverSchema schemaDb now w = (Return obj, w') /\
    handleSchema schemaDb now w
    = (Return {| statusCode := 200; body := SchemaBody obj.(snapshot) |}, w') /\
    (exitPath schemaDb now w = DiscoveryFailed -> obj.(snapshot) = fallbackSchema).
Proof.
  destruct (discoverSchema_returns schemaDb now w)
    as (obj & w' & discovery & Ed & _ & _ & Hfail).
  exists obj, w'. split; [exact Ed|]. split; [|exact Hfail].
  unfold handleSchema, tryCatch, bind. rewrite Ed. reflexivity.
Qed.
